(** * Port allocator of the engine's network driver

    A shallow embedding of
    [components/engine/daemon/networkdriver/portallocator/portallocator.go]
    and the properties of its request / release / reset protocol.

    Go's [int] is taken as the 64-bit signed integer of the amd64 port, a
    [Z] with the wrap-around of [+] and [-] written out.  The two maps of
    the package are finite maps keyed by strings, a port set
    [map[int]struct{}] is a finite set of integers.  The package-level
    variables [beginPortRange], [endPortRange] and [globalMap] form the
    state that every exported function threads.  The package mutex makes
    each exported function one atomic step, which is how the functions are
    modelled here. *)

From stdpp Require Import gmap strings list fin_maps fin_sets pretty.
From Stdlib Require Import ZArith Lia Ascii.

Local Open Scope Z_scope.

(** ** Machine integers *)

Definition max_int : Z := 2 ^ 63 - 1.
Definition min_int : Z := - 2 ^ 63.

(** Two's complement wrap-around of a 64-bit signed result. *)
Definition wrap (z : Z) : Z := (z + 2 ^ 63) mod 2 ^ 64 - 2 ^ 63.

Definition is_int (z : Z) : Prop := min_int <= z <= max_int.

(** ** Outcome of a call

    A call returns, or the Go runtime panics (a nil pointer is
    dereferenced), or the loop bound of the embedding is used up. *)

Inductive exec (A : Type) : Type :=
| Done (a : A)
| Panic
| OutOfFuel.

Arguments Done {A} a.
Arguments Panic {A}.
Arguments OutOfFuel {A}.

(** ** Constants and errors *)

Definition DefaultPortRangeStart : Z := 49153.
Definition DefaultPortRangeEnd : Z := 65535.

Inductive error : Type :=
| ErrAllPortsAllocated
| ErrUnknownProtocol
| ErrPortAlreadyAllocated (ip : string) (port : Z).

Definition NewErrPortAlreadyAllocated (ip : string) (port : Z) : error :=
  ErrPortAlreadyAllocated ip port.

(** The methods [IPPort] and [Error] of [ErrPortAlreadyAllocated], on the
    two fields of the receiver; [fmt.Sprintf] with the verbs [%s] and [%d]
    is concatenation with the decimal form of the [int].  The methods [IP]
    and [Port] return the fields. *)
Definition IPPort (ip : string) (port : Z) : string :=
  ip +:+ ":" +:+ pretty port.

Definition Error (e : error) : string :=
  match e with
  | ErrAllPortsAllocated => "all ports are allocated"
  | ErrUnknownProtocol => "unknown protocol"
  | ErrPortAlreadyAllocated ip port =>
      "Bind for " +:+ ip +:+ ":" +:+ pretty port
        +:+ " failed: port is already allocated"
  end.

(** ** Data model *)

Record portMap : Type := mkPortMap {
  p : gset Z;
  last : Z
}.

Record state : Type := mkState {
  beginPortRange : Z;
  endPortRange : Z;
  globalMap : gmap string (gmap string portMap)
}.

Definition newPortMap (s : state) : portMap :=
  {| p := ∅; last := endPortRange s |}.

Definition newProtoMap (s : state) : gmap string portMap :=
  <["tcp" := newPortMap s]> (<["udp" := newPortMap s]> ∅).

Definition GetPortRange (s : state) : Z * Z :=
  (beginPortRange s, endPortRange s).

(** The package variables before [init] has run. *)
Definition package_vars : state :=
  {| beginPortRange := DefaultPortRangeStart;
     endPortRange := DefaultPortRangeEnd;
     globalMap := ∅ |}.

(** ** Round-robin search *)

(** The body of [for i := 0; i <= end-start; i++ { ... }] of [findPort].
    [fuel] bounds the number of iterations of the embedding; [i] and
    [port] are the loop variables. *)
Fixpoint findPort_loop (fuel : nat) (start end_ : Z) (i port : Z)
    (pm : portMap) : exec ((Z * option error) * portMap) :=
  match fuel with
  | O => OutOfFuel
  | S fuel' =>
      if i <=? wrap (end_ - start) then
        let port := wrap (port + 1) in
        let port := if port >? end_ then start else port in
        if decide (port ∈ p pm) then
          findPort_loop fuel' start end_ (wrap (i + 1)) port pm
        else
          Done ((port, None), {| p := {[port]} ∪ p pm; last := port |})
      else
        Done ((0, Some ErrAllPortsAllocated), pm)
  end.

(** One more iteration than the loop condition allows when [i] does not
    wrap: the last one sees the condition fail.  When [end - start] is
    negative the first test of the condition fails, which takes one. *)
Definition findPort_fuel (start end_ : Z) : nat :=
  Z.to_nat (Z.max (wrap (end_ - start) + 2) 1).

Definition findPort (s : state) (pm : portMap)
    : exec ((Z * option error) * portMap) :=
  let port := last pm in
  let '(start, end_) := GetPortRange s in
  findPort_loop (findPort_fuel start end_) start end_ 0 port pm.

(** ** Range discovery

    [ioutil.ReadFile] and [fmt.Fscanf] belong to the standard library of
    Go.  [init] is given the result of the read (the content of the file,
    or the text of the error) and the scanner for the format
    ["%d\t%d"], which reports what it stored in [start] and [end], the
    count of parsed numbers and its error. *)

Record scan_result : Type := mkScan {
  scan_start : Z;
  scan_end : Z;
  scan_n : Z;
  scan_err : option string
}.

Definition param : string := "/proc/sys/net/ipv4/ip_local_port_range".

(** Returns the package variables and the lines given to [log.Errorf]. *)
Definition init (line : string + string) (Fscanf : string -> scan_result)
    (s : state) : state * list string :=
  match line with
  | inr err =>
      (s, ["Failed to read " +:+ param +:+ " kernel parameter: " +:+ err])
  | inl line =>
      let r := Fscanf line in
      if bool_decide (scan_n r ≠ 2 ∨ scan_err r ≠ None) then
        let err :=
          match scan_err r with
          | None =>
              "unexpected count of parsed numbers (" +:+ pretty (scan_n r)
                +:+ ")"
          | Some err => err
          end in
        (s, ["Failed to parse port range from " +:+ param +:+ ": " +:+ err])
      else
        ({| beginPortRange := scan_start r;
            endPortRange := scan_end r;
            globalMap := globalMap s |}, [])
  end.

(** ** The scan of the port range

    What [fmt.Fscanf] does with the format ["%d\t%d"] on the content of
    the file, after the documentation and the scanner of Go's package
    [fmt], on input of ASCII bytes: the verb [%d] skips spaces, stops
    with an error at a newline and at the end of the input, takes an
    optional sign and the longest run of decimal digits, and fails when
    there is no digit or when the number does not fit an [int]; the tab
    of the format takes one or more spaces of the input, none at the end
    of the input, and fails at a newline and at any other byte.  What
    follows the second number is not read.  Only the presence of an
    error, not its text, decides what [init] does; the text goes into the
    line of the log. *)

(** The ASCII part of the scanner's [isSpace]: tab, newline, vertical
    tab, form feed, carriage return and space. *)
Definition isSpace (c : ascii) : bool :=
  match N_of_ascii c with
  | 9 | 10 | 11 | 12 | 13 | 32 => true
  | _ => false
  end%N.

Definition is_newline (c : ascii) : bool := (N_of_ascii c =? 10)%N.

Definition is_digit (c : ascii) : bool :=
  ((48 <=? N_of_ascii c) && (N_of_ascii c <=? 57))%N.

Definition digit_value (c : ascii) : Z := Z.of_N (N_of_ascii c) - 48.

(** [SkipSpace], with newlines not counted as space: the remaining input,
    or the error. *)
Fixpoint SkipSpace (s : string) : string + string :=
  match s with
  | EmptyString => inl EmptyString
  | String c s' =>
      if is_newline c then inr "unexpected newline"
      else if isSpace c then SkipSpace s'
      else inl s
  end.

(** The longest run of digits at the head of the input, as a number, and
    the input after it. *)
Fixpoint scan_digits (acc : Z) (s : string) : Z * string :=
  match s with
  | EmptyString => (acc, EmptyString)
  | String c s' =>
      if is_digit c then scan_digits (acc * 10 + digit_value c) s'
      else (acc, s)
  end.

(** [scanInt] for the verb [%d] and an [int] of 64 bits: the number and
    the remaining input, or the error. *)
Definition scanInt (s : string) : (Z * string) + string :=
  match SkipSpace s with
  | inr err => inr err
  | inl EmptyString => inr "unexpected EOF"
  | inl (String c s1 as s0) =>
      let '(neg, s2) :=
        if Ascii.eqb c "+"%char then (false, s1)
        else if Ascii.eqb c "-"%char then (true, s1)
        else (false, s0) in
      match s2 with
      | EmptyString => inr "unexpected EOF"
      | String d _ =>
          if is_digit d then
            let '(v, rest) := scan_digits 0 s2 in
            let v := if neg then - v else v in
            if (min_int <=? v) && (v <=? max_int) then inl (v, rest)
            else inr "value out of range"
          else inr "expected integer"
      end
  end.

(** Spaces other than newlines at the head of the input are dropped. *)
Fixpoint skip_blanks (s : string) : string :=
  match s with
  | EmptyString => EmptyString
  | String c s' =>
      if isSpace c && negb (is_newline c) then skip_blanks s' else s
  end.

(** The tab of the format against the input. *)
Definition advance_space (s : string) : string + string :=
  match s with
  | EmptyString => inl EmptyString
  | String c s' =>
      if negb (isSpace c) then
        inr "expected space in input to match format"
      else if is_newline c then
        inr "newline in input does not match format"
      else inl (skip_blanks s')
  end.

(** [fmt.Fscanf(strings.NewReader(line), "%d\t%d", &start, &end)]. *)
Definition Fscanf_port_range (line : string) : scan_result :=
  match scanInt line with
  | inr err =>
      {| scan_start := 0; scan_end := 0; scan_n := 0; scan_err := Some err |}
  | inl (start, s1) =>
      match advance_space s1 with
      | inr err =>
          {| scan_start := start; scan_end := 0; scan_n := 1;
             scan_err := Some err |}
      | inl s2 =>
          match scanInt s2 with
          | inr err =>
              {| scan_start := start; scan_end := 0; scan_n := 1;
                 scan_err := Some err |}
          | inl (end_, _) =>
              {| scan_start := start; scan_end := end_; scan_n := 2;
                 scan_err := None |}
          end
      end
  end.

(** Whether the text holds a decimal digit. *)
Fixpoint has_digit (s : string) : bool :=
  match s with
  | EmptyString => false
  | String c s' => is_digit c || has_digit s'
  end.

(** Whether the text is made of spaces and tabs. *)
Fixpoint all_blank (s : string) : bool :=
  match s with
  | EmptyString => true
  | String c s' =>
      (Ascii.eqb c " "%char || Ascii.eqb c "009"%char) && all_blank s'
  end.

(** Whether the text is empty or begins with a space or a newline. *)
Definition ends_number (s : string) : bool :=
  match s with
  | EmptyString => true
  | String c _ => isSpace c
  end.

(** The number of integers in the text: the runs of digits. *)
Fixpoint count_integers_from (in_run : bool) (s : string) : nat :=
  match s with
  | EmptyString => O
  | String c s' =>
      if is_digit c then
        ((if in_run then 0 else 1) + count_integers_from true s')%nat
      else count_integers_from false s'
  end.

Definition count_integers (s : string) : nat := count_integers_from false s.

Definition tab : string := String "009"%char EmptyString.
Definition newline : string := String "010"%char EmptyString.

(** The content of the file as the kernel writes it, and a content with
    three numbers. *)
Definition usual_content : string :=
  "32768" +:+ tab +:+ "60999" +:+ newline.

Definition three_numbers : string :=
  "1" +:+ tab +:+ "2" +:+ tab +:+ "3" +:+ newline.

(** ** The exported functions

    [net.IP] is a byte slice; [None] is the nil slice.  Its [String]
    method belongs to the standard library of Go and is a member of the
    interface below, as is the address that [net.ParseIP("0.0.0.0")]
    returns. *)

Class NetIP (IP : Type) : Type := {
  IP_String : IP -> string;
  defaultIP : IP
}.

Section Allocator.

Context {IP : Type} `{NetIP IP}.

Definition ip_key (ip : option IP) : string :=
  IP_String (match ip with None => defaultIP | Some a => a end).

(** Writes the port map back under [ipstr] and [proto]: the Go code
    mutates the [*portMap] that both maps reach. *)
Definition store (s : state) (ipstr proto : string)
    (protomap : gmap string portMap) (pm : portMap) : state :=
  {| beginPortRange := beginPortRange s;
     endPortRange := endPortRange s;
     globalMap := <[ipstr := <[proto := pm]> protomap]> (globalMap s) |}.

Definition RequestPort (s : state) (ip : option IP) (proto : string)
    (port : Z) : exec ((Z * option error) * state) :=
  if bool_decide (proto ≠ "tcp" ∧ proto ≠ "udp") then
    Done ((0, Some ErrUnknownProtocol), s)
  else
    let ipstr := ip_key ip in
    let '(protomap, s) :=
      match globalMap s !! ipstr with
      | Some protomap => (protomap, s)
      | None =>
          let protomap := newProtoMap s in
          (protomap,
           {| beginPortRange := beginPortRange s;
              endPortRange := endPortRange s;
              globalMap := <[ipstr := protomap]> (globalMap s) |})
      end in
    match protomap !! proto with
    | None => Panic
    | Some mapping =>
        if port >? 0 then
          if decide (port ∈ p mapping) then
            Done ((0, Some (NewErrPortAlreadyAllocated ipstr port)), s)
          else
            Done ((port, None),
                  store s ipstr proto protomap
                    {| p := {[port]} ∪ p mapping; last := last mapping |})
        else
          match findPort s mapping with
          | Done ((port, None), mapping') =>
              Done ((port, None), store s ipstr proto protomap mapping')
          | Done ((_, Some err), mapping') =>
              Done ((0, Some err), store s ipstr proto protomap mapping')
          | Panic => Panic
          | OutOfFuel => OutOfFuel
          end
    end.

Definition ReleasePort (s : state) (ip : option IP) (proto : string)
    (port : Z) : exec (option error * state) :=
  let ipstr := ip_key ip in
  match globalMap s !! ipstr with
  | None => Done (None, s)
  | Some protomap =>
      match protomap !! proto with
      | None => Panic
      | Some mapping =>
          Done (None,
                store s ipstr proto protomap
                  {| p := p mapping ∖ {[port]}; last := last mapping |})
      end
  end.

Definition ReleaseAll (s : state) : option error * state :=
  (None,
   {| beginPortRange := beginPortRange s;
      endPortRange := endPortRange s;
      globalMap := ∅ |}).

(** ** Observations, calls and runs *)

Definition lookup_pm (s : state) (ipstr proto : string) : option portMap :=
  match globalMap s !! ipstr with
  | Some protomap => protomap !! proto
  | None => None
  end.

(** The Port Set of an (IP, protocol) pair; an IP without an entry has no
    port allocated. *)
Definition portSet (s : state) (ipstr proto : string) : gset Z :=
  match lookup_pm s ipstr proto with
  | Some pm => p pm
  | None => ∅
  end.

(** The cursor of an (IP, protocol) pair; a Port Set that does not exist
    yet will be created with the upper bound of the range. *)
Definition cursor (s : state) (ipstr proto : string) : Z :=
  match lookup_pm s ipstr proto with
  | Some pm => last pm
  | None => endPortRange s
  end.

Inductive call : Type :=
| CallRequestPort (ip : option IP) (proto : string) (port : Z)
| CallReleasePort (ip : option IP) (proto : string) (port : Z)
| CallReleaseAll.

Inductive ret : Type :=
| RetPort (port : Z) (err : option error)
| RetErr (err : option error).

Definition step (s : state) (c : call) : exec (ret * state) :=
  match c with
  | CallRequestPort ip proto port =>
      match RequestPort s ip proto port with
      | Done ((port, err), s') => Done (RetPort port err, s')
      | Panic => Panic
      | OutOfFuel => OutOfFuel
      end
  | CallReleasePort ip proto port =>
      match ReleasePort s ip proto port with
      | Done (err, s') => Done (RetErr err, s')
      | Panic => Panic
      | OutOfFuel => OutOfFuel
      end
  | CallReleaseAll =>
      let '(err, s') := ReleaseAll s in Done (RetErr err, s')
  end.

(** The calls made so far with what they returned, the latest first, and
    the state they lead to. *)
Inductive trace (s0 : state) : list (call * ret) -> state -> Prop :=
| trace_nil : trace s0 [] s0
| trace_cons evs s c r s' :
    trace s0 evs s ->
    step s c = Done (r, s') ->
    trace s0 ((c, r) :: evs) s'.

Definition reachable (s0 s : state) : Prop := ∃ evs, trace s0 evs s.

(** The state in which the package starts serving calls: the range that
    [init] left, and an empty table. *)
Definition boot (start end_ : Z) : state :=
  {| beginPortRange := start; endPortRange := end_; globalMap := ∅ |}.

(** Whether the call is a request for any port on the pair (ipstr, proto)
    that returned a port. *)
Definition any_succeeded (ipstr proto : string) (ev : call * ret) : bool :=
  match ev with
  | (CallRequestPort ip proto' port, RetPort _ None) =>
      bool_decide (port <= 0 ∧ ip_key ip = ipstr ∧ proto' = proto)
  | _ => false
  end.

(** Whether a round-robin search has succeeded on the Port Set that the
    pair (ipstr, proto) has now, that is, since the last [ReleaseAll]. *)
Fixpoint rr_succeeded (ipstr proto : string) (evs : list (call * ret))
    : bool :=
  match evs with
  | [] => false
  | (CallReleaseAll, _) :: _ => false
  | ev :: evs' =>
      any_succeeded ipstr proto ev || rr_succeeded ipstr proto evs'
  end.

(** The number of successful requests for any port on the pair. *)
Fixpoint count_any (ipstr proto : string) (evs : list (call * ret)) : nat :=
  match evs with
  | [] => O
  | ev :: evs' =>
      ((if any_succeeded ipstr proto ev then 1 else 0)
       + count_any ipstr proto evs')%nat
  end.

Definition is_release (ev : call * ret) : bool :=
  match ev with
  | (CallRequestPort _ _ _, _) => false
  | _ => true
  end.

(** The ports that the successful requests on the pair (ipstr, proto)
    returned, the latest first. *)
Fixpoint allocated (ipstr proto : string) (evs : list (call * ret))
    : list Z :=
  match evs with
  | [] => []
  | (CallRequestPort ip proto' port, RetPort c None) :: evs' =>
      if bool_decide (ip_key ip = ipstr ∧ proto' = proto)
      then c :: allocated ipstr proto evs'
      else allocated ipstr proto evs'
  | _ :: evs' => allocated ipstr proto evs'
  end.

End Allocator.

(** ** Auxiliary definitions of the proofs *)

Definition valid_proto (proto : string) : Prop :=
  proto = "tcp" ∨ proto = "udp".

(** The protocol map that [RequestPort] works on: the entry of the
    address, or the fresh one it is about to store. *)
Definition protomap_of (s : state) (ipstr : string) : gmap string portMap :=
  match globalMap s !! ipstr with
  | Some protomap => protomap
  | None => newProtoMap s
  end.

(** The state once the entry of the address exists. *)
Definition ensure (s : state) (ipstr : string) : state :=
  {| beginPortRange := beginPortRange s;
     endPortRange := endPortRange s;
     globalMap := <[ipstr := protomap_of s ipstr]> (globalMap s) |}.

(** The candidate after [port] when nothing wraps around. *)
Definition next_port (start end_ port : Z) : Z :=
  if port + 1 >? end_ then start else port + 1.

(** The search over mathematical integers: at most [n] candidates after
    [port], the first one that is not in [ps]. *)
Fixpoint scan (n : nat) (start end_ : Z) (ps : gset Z) (port : Z)
    : option Z :=
  match n with
  | O => None
  | S n' =>
      let c := next_port start end_ port in
      if decide (c ∈ ps) then scan n' start end_ ps c else Some c
  end.

(** The ports of the range, as a set. *)
Definition range_set (start end_ : Z) : gset Z :=
  list_to_set (seqZ start (end_ - start + 1)).

(** A range in which no arithmetic of [findPort] wraps around: the
    bounds are ordered, [port++] at the upper bound and the count
    [end - start] of the loop stay below the largest [int]. *)
Definition range_ok (start end_ : Z) : Prop :=
  min_int <= start ∧ start <= end_ ∧ end_ < max_int ∧
  end_ - start < max_int.

(** Every protocol map holds both protocols, as [newProtoMap] builds it. *)
Definition wf (s : state) : Prop :=
  ∀ ipstr protomap, globalMap s !! ipstr = Some protomap ->
    is_Some (protomap !! "tcp") ∧ is_Some (protomap !! "udp").

(** Every cursor lies in the range. *)
Definition cursors_in_range (s : state) : Prop :=
  ∀ ipstr proto pm, lookup_pm s ipstr proto = Some pm ->
    beginPortRange s <= last pm <= endPortRange s.

(** What the calls keep true of a state whose range is [start, end_]. *)
Definition inv (start end_ : Z) (s : state) : Prop :=
  beginPortRange s = start ∧ endPortRange s = end_ ∧ wf s ∧
  cursors_in_range s.

(** No protocol map holds a protocol other than tcp and udp. *)
Definition only_protocols (s : state) : Prop :=
  ∀ ipstr protomap proto, globalMap s !! ipstr = Some protomap ->
    is_Some (protomap !! proto) -> valid_proto proto.

(** The number of candidates that the search tries from the cursor [port]
    up to and including [q], both in the range. *)
Definition steps_to (start end_ port q : Z) : Z :=
  if port <? q then q - port else q - port + (end_ - start + 1).

(** ** An instance of the address interface

    IPv4 addresses in their 4-byte form, printed in dotted decimal. *)

Definition ipv4_String (ip : list N) : string :=
  match ip with
  | [a; b; c; d] =>
      pretty a +:+ "." +:+ pretty b +:+ "." +:+ pretty c +:+ "." +:+ pretty d
  | [] => "<nil>"
  | _ => "?"
  end.

#[export] Instance ipv4_NetIP : NetIP (list N) :=
  {| IP_String := ipv4_String; defaultIP := [0; 0; 0; 0]%N |}.

Definition ip_10_0_0_1 : option (list N) := Some [10; 0; 0; 1]%N.

(** The nil address. *)
Definition ip_nil : option (list N) := None.

(** The state after port 80 has been requested for the nil address. *)
Definition pool_with_port_80 : state :=
  match RequestPort (boot 49153 65535) ip_nil "tcp" 80 with
  | Done (_, s) => s
  | _ => boot 49153 65535
  end.

(** The state after the first request for any port in the range
    [49153, 49154]. *)
Definition pool_two_after_first : state :=
  match RequestPort (boot 49153 49154) ip_10_0_0_1 "tcp" 0 with
  | Done (_, s) => s
  | _ => boot 49153 49154
  end.

(** The state after port 49153 has been requested in the range
    [49153, 49155]. *)
Definition pool_three_with_lower_bound : state :=
  match RequestPort (boot 49153 49155) ip_10_0_0_1 "tcp" 49153 with
  | Done (_, s) => s
  | _ => boot 49153 49155
  end.

(** * Properties *)

(** ** Machine arithmetic *)

Lemma wrap_id (z : Z) : is_int z -> wrap z = z.
Proof.
  unfold is_int, wrap, min_int, max_int. intros Hz.
  rewrite Z.mod_small; lia.
Qed.

Lemma wrap_is_int (z : Z) : is_int (wrap z).
Proof.
  unfold is_int, wrap, min_int, max_int.
  pose proof (Z.mod_pos_bound (z + 2 ^ 63) (2 ^ 64)). lia.
Qed.

Lemma range_ok_count (start end_ : Z) :
  range_ok start end_ -> wrap (end_ - start) = end_ - start.
Proof.
  unfold range_ok, min_int, max_int. intros Hr.
  apply wrap_id. unfold is_int, min_int, max_int. lia.
Qed.

(** ** The loop of [findPort] *)

(** Whatever the range, a search that returns either fails and leaves the
    port map as it was, or returns a port that was not in the set, puts
    it there and moves the cursor onto it. *)
Lemma findPort_loop_inv fuel start end_ i port pm r pm' :
  findPort_loop fuel start end_ i port pm = Done (r, pm') ->
  (r = (0, Some ErrAllPortsAllocated) ∧ pm' = pm) ∨
  (∃ c, r = (c, None) ∧ (c ∉ p pm) ∧
        pm' = {| p := {[c]} ∪ p pm; last := c |}).
Proof.
  revert i port. induction fuel as [|fuel IH]; intros i port; simpl.
  - discriminate.
  - destruct (i <=? wrap (end_ - start)).
    + case_decide as Hin.
      * apply IH.
      * intros [= <- <-]. right. eexists. repeat split. exact Hin.
    + intros [= <- <-]. left. split; reflexivity.
Qed.

Lemma next_port_in_range start end_ port :
  start <= end_ -> start - 1 <= port <= end_ ->
  start <= next_port start end_ port <= end_.
Proof.
  intros Hse Hp. unfold next_port.
  destruct (port + 1 >? end_) eqn:E; lia.
Qed.

(** In a range where nothing wraps around, the loop is the search over
    mathematical integers with the iterations that are left. *)
Lemma findPort_loop_scan fuel start end_ i port pm :
  range_ok start end_ ->
  start - 1 <= port <= end_ ->
  0 <= i <= end_ - start + 1 ->
  (Z.to_nat (end_ - start + 1 - i) < fuel)%nat ->
  findPort_loop fuel start end_ i port pm =
  Done match scan (Z.to_nat (end_ - start + 1 - i)) start end_ (p pm) port with
       | Some c => ((c, None), {| p := {[c]} ∪ p pm; last := c |})
       | None => ((0, Some ErrAllPortsAllocated), pm)
       end.
Proof.
  intros Hr. pose proof (range_ok_count _ _ Hr) as Hd.
  revert i port. induction fuel as [|fuel IH]; intros i port Hp Hi Hfuel.
  - lia.
  - simpl. rewrite Hd.
    destruct (i <=? end_ - start) eqn:Ei.
    + apply Z.leb_le in Ei.
      replace (Z.to_nat (end_ - start + 1 - i))
        with (S (Z.to_nat (end_ - start + 1 - (i + 1)))) in * by lia.
      simpl.
      assert (wrap (port + 1) = port + 1) as ->.
      { apply wrap_id. unfold range_ok, is_int in *. lia. }
      assert (wrap (i + 1) = i + 1) as ->.
      { apply wrap_id. unfold range_ok, is_int, min_int in *. lia. }
      fold (next_port start end_ port).
      case_decide as Hin; [|reflexivity].
      apply IH; [|lia|lia].
      pose proof (next_port_in_range start end_ port). 
      unfold range_ok in Hr. lia.
    + apply Z.leb_gt in Ei.
      replace (Z.to_nat (end_ - start + 1 - i)) with O by lia.
      reflexivity.
Qed.

Lemma findPort_scan s pm :
  range_ok (beginPortRange s) (endPortRange s) ->
  beginPortRange s - 1 <= last pm <= endPortRange s ->
  findPort s pm =
  Done match scan (Z.to_nat (endPortRange s - beginPortRange s + 1))
               (beginPortRange s) (endPortRange s) (p pm) (last pm) with
       | Some c => ((c, None), {| p := {[c]} ∪ p pm; last := c |})
       | None => ((0, Some ErrAllPortsAllocated), pm)
       end.
Proof.
  intros Hr Hl. unfold findPort, GetPortRange, findPort_fuel.
  rewrite (range_ok_count _ _ Hr).
  rewrite findPort_loop_scan; try assumption.
  - rewrite Z.sub_0_r. reflexivity.
  - unfold range_ok in Hr. lia.
  - unfold range_ok in Hr. lia.
Qed.


(** ** The search over mathematical integers *)

Lemma scan_Some n start end_ ps port c :
  start <= end_ -> start - 1 <= port <= end_ ->
  scan n start end_ ps port = Some c ->
  start <= c <= end_ ∧ c ∉ ps.
Proof.
  intros Hse. revert port. induction n as [|n IH]; intros port Hp; simpl.
  - discriminate.
  - pose proof (next_port_in_range start end_ port Hse Hp) as Hn.
    case_decide as Hin.
    + apply IH. lia.
    + intros [= <-]. split; assumption.
Qed.

Lemma scan_full n start end_ ps port :
  start <= end_ -> start - 1 <= port <= end_ ->
  (∀ c, start <= c <= end_ -> c ∈ ps) ->
  scan n start end_ ps port = None.
Proof.
  intros Hse Hp Hfull. revert port Hp.
  induction n as [|n IH]; intros port Hp; simpl; [reflexivity|].
  pose proof (next_port_in_range start end_ port Hse Hp) as Hn.
  rewrite decide_True by (apply Hfull; exact Hn).
  apply IH. lia.
Qed.

(** The number of candidates tried from [port] until [q] is reached. *)
Lemma scan_finds n start end_ ps port q :
  start <= end_ -> start - 1 <= port <= end_ ->
  start <= q <= end_ -> q ∉ ps ->
  (∀ c, start <= c <= end_ -> c ≠ q -> c ∈ ps) ->
  (if port <? q then q - port else q - port + (end_ - start + 1))
    <= Z.of_nat n ->
  scan n start end_ ps port = Some q.
Proof.
  intros Hse Hp Hq Hfree Hothers. revert port Hp.
  induction n as [|n IH]; intros port Hp Hdist.
  - destruct (port <? q) eqn:E; [apply Z.ltb_lt in E|apply Z.ltb_ge in E]; lia.
  - simpl.
    pose proof (next_port_in_range start end_ port Hse Hp) as Hn.
    destruct (decide (next_port start end_ port = q)) as [Heq|Hne].
    + rewrite Heq. rewrite decide_False by exact Hfree. reflexivity.
    + rewrite decide_True by (apply Hothers; assumption).
      apply IH; [lia|].
      revert Hdist Hne. unfold next_port.
      destruct (port + 1 >? end_) eqn:E1;
        [apply Z.gtb_lt in E1|rewrite Z.gtb_ltb in E1; apply Z.ltb_ge in E1];
        destruct (port <? q) eqn:E2;
        [apply Z.ltb_lt in E2|apply Z.ltb_ge in E2
        |apply Z.ltb_lt in E2|apply Z.ltb_ge in E2];
        intros Hdist Hne.
      * lia.
      * destruct (start <? q) eqn:E3;
          [apply Z.ltb_lt in E3|apply Z.ltb_ge in E3]; lia.
      * destruct (port + 1 <? q) eqn:E3;
          [apply Z.ltb_lt in E3|apply Z.ltb_ge in E3]; lia.
      * destruct (port + 1 <? q) eqn:E3;
          [apply Z.ltb_lt in E3|apply Z.ltb_ge in E3]; lia.
Qed.

(** ** The ports of the range *)

Lemma elem_of_range_set start end_ c :
  c ∈ range_set start end_ ↔ start <= c <= end_.
Proof.
  unfold range_set. rewrite elem_of_list_to_set, elem_of_seqZ. lia.
Qed.

Lemma size_range_set start end_ :
  size (range_set start end_) = Z.to_nat (end_ - start + 1).
Proof.
  unfold range_set. rewrite size_list_to_set by apply NoDup_seqZ.
  apply length_seqZ.
Qed.


Section Properties.

Context {IP : Type} `{NetIP IP}.

Implicit Types (s : state) (ip : option IP) (proto ipstr : string).
Implicit Types (port : Z) (pm : portMap).

(** ** The table *)

Lemma valid_proto_test proto :
  valid_proto proto -> bool_decide (proto ≠ "tcp" ∧ proto ≠ "udp") = false.
Proof.
  intros [-> | ->]; apply bool_decide_eq_false_2; intros [? ?]; congruence.
Qed.

Lemma newProtoMap_lookup s proto :
  valid_proto proto -> newProtoMap s !! proto = Some (newPortMap s).
Proof. intros [-> | ->]; reflexivity. Qed.

Lemma newProtoMap_lookup_inv s proto pm :
  newProtoMap s !! proto = Some pm -> pm = newPortMap s.
Proof.
  unfold newProtoMap. rewrite !lookup_insert.
  repeat case_decide; rewrite ?lookup_empty; congruence.
Qed.

Lemma ensure_id s ipstr protomap :
  globalMap s !! ipstr = Some protomap -> ensure s ipstr = s.
Proof.
  intros Hg. unfold ensure, protomap_of. rewrite Hg.
  rewrite insert_id by exact Hg. destruct s; reflexivity.
Qed.

Lemma store_id s ipstr proto protomap pm :
  globalMap s !! ipstr = Some protomap -> protomap !! proto = Some pm ->
  store s ipstr proto protomap pm = s.
Proof.
  intros Hg Hm. unfold store.
  rewrite (insert_id protomap) by exact Hm.
  rewrite insert_id by exact Hg. destruct s; reflexivity.
Qed.

(** [RequestPort] once the protocol has passed the test, with the lazy
    creation of the entry folded into [protomap_of] and [ensure]. *)
Lemma RequestPort_valid s ip proto port :
  valid_proto proto ->
  RequestPort s ip proto port =
  match protomap_of s (ip_key ip) !! proto with
  | None => Panic
  | Some mapping =>
      if port >? 0 then
        if decide (port ∈ p mapping) then
          Done ((0, Some (ErrPortAlreadyAllocated (ip_key ip) port)),
                ensure s (ip_key ip))
        else
          Done ((port, None),
                store s (ip_key ip) proto (protomap_of s (ip_key ip))
                  {| p := {[port]} ∪ p mapping; last := last mapping |})
      else
        match findPort s mapping with
        | Done ((port, None), mapping') =>
            Done ((port, None),
                  store s (ip_key ip) proto (protomap_of s (ip_key ip))
                    mapping')
        | Done ((_, Some err), mapping') =>
            Done ((0, Some err),
                  store s (ip_key ip) proto (protomap_of s (ip_key ip))
                    mapping')
        | Panic => Panic
        | OutOfFuel => OutOfFuel
        end
  end.
Proof.
  intros Hv. unfold RequestPort. rewrite (valid_proto_test _ Hv).
  unfold protomap_of.
  destruct (globalMap s !! ip_key ip) as [protomap|] eqn:Hg.
  - rewrite (ensure_id _ _ _ Hg). reflexivity.
  - destruct (newProtoMap s !! proto) as [mapping|] eqn:Hm;
      [|reflexivity].
    unfold NewErrPortAlreadyAllocated, ensure, protomap_of, store, findPort.
    simpl. rewrite Hg.
    destruct (port >? 0).
    + case_decide; rewrite ?insert_insert_eq; reflexivity.
    + destruct (findPort_loop _ _ _ _ _ _) as [[[c [err|]] mapping']| |];
        rewrite ?insert_insert_eq; reflexivity.
Qed.

Lemma lookup_pm_store s ipstr proto protomap pm ipstr' proto' :
  lookup_pm (store s ipstr proto protomap pm) ipstr' proto' =
  if decide (ipstr = ipstr') then
    if decide (proto = proto') then Some pm else protomap !! proto'
  else lookup_pm s ipstr' proto'.
Proof.
  unfold lookup_pm, store. simpl. rewrite lookup_insert.
  case_decide; [|reflexivity].
  rewrite lookup_insert. reflexivity.
Qed.

Lemma lookup_pm_ensure s ipstr ipstr' proto' :
  lookup_pm (ensure s ipstr) ipstr' proto' =
  if decide (ipstr = ipstr') then protomap_of s ipstr !! proto'
  else lookup_pm s ipstr' proto'.
Proof.
  unfold lookup_pm, ensure. simpl. rewrite lookup_insert.
  case_decide; reflexivity.
Qed.

(** The port map that a request works on holds the Port Set and the cursor
    of the pair. *)
Lemma protomap_of_lookup s ipstr proto :
  wf s -> valid_proto proto ->
  ∃ mapping, protomap_of s ipstr !! proto = Some mapping ∧
             p mapping = portSet s ipstr proto ∧
             last mapping = cursor s ipstr proto.
Proof.
  intros Hwf Hv. unfold protomap_of, portSet, cursor, lookup_pm.
  destruct (globalMap s !! ipstr) as [protomap|] eqn:Hg.
  - destruct (Hwf _ _ Hg) as [[pt Ht] [pu Hu]].
    destruct Hv as [-> | ->]; eexists; (split; [eassumption|]);
      rewrite ?Ht, ?Hu; split; reflexivity.
  - rewrite (newProtoMap_lookup _ _ Hv). eexists. repeat split.
Qed.

Lemma ensure_store s ipstr proto mapping :
  protomap_of s ipstr !! proto = Some mapping ->
  store s ipstr proto (protomap_of s ipstr) mapping = ensure s ipstr.
Proof.
  intros Hm. unfold store, ensure. rewrite (insert_id _ _ _ Hm). reflexivity.
Qed.

Lemma portSet_store s ipstr proto protomap pm :
  portSet (store s ipstr proto protomap pm) ipstr proto = p pm.
Proof. unfold portSet. rewrite lookup_pm_store, !decide_True; done. Qed.

Lemma cursor_store s ipstr proto protomap pm :
  cursor (store s ipstr proto protomap pm) ipstr proto = last pm.
Proof. unfold cursor. rewrite lookup_pm_store, !decide_True; done. Qed.

Lemma lookup_pm_protomap_of s ipstr proto :
  lookup_pm s ipstr proto = None ∨
  lookup_pm s ipstr proto = protomap_of s ipstr !! proto.
Proof.
  unfold lookup_pm, protomap_of.
  destruct (globalMap s !! ipstr); [right|left]; reflexivity.
Qed.

(** A request or a release for one pair leaves the Port Set and the cursor
    of every other pair as they were. *)
Lemma portSet_store_other s ipstr proto pm ipstr' proto' :
  (ipstr', proto') ≠ (ipstr, proto) ->
  portSet (store s ipstr proto (protomap_of s ipstr) pm) ipstr' proto' =
  portSet s ipstr' proto'.
Proof.
  intros Hne. unfold portSet. rewrite lookup_pm_store.
  case_decide as Hi; [subst ipstr'|reflexivity].
  rewrite decide_False by congruence.
  unfold lookup_pm, protomap_of.
  destruct (globalMap s !! ipstr); [reflexivity|].
  destruct (newProtoMap s !! proto') as [pm0|] eqn:Hm; [|reflexivity].
  apply newProtoMap_lookup_inv in Hm. subst pm0. reflexivity.
Qed.

Lemma cursor_store_other s ipstr proto pm ipstr' proto' :
  (ipstr', proto') ≠ (ipstr, proto) ->
  cursor (store s ipstr proto (protomap_of s ipstr) pm) ipstr' proto' =
  cursor s ipstr' proto'.
Proof.
  intros Hne. unfold cursor. rewrite lookup_pm_store.
  case_decide as Hi; [subst ipstr'|reflexivity].
  rewrite decide_False by congruence.
  unfold lookup_pm, protomap_of.
  destruct (globalMap s !! ipstr); [reflexivity|].
  destruct (newProtoMap s !! proto') as [pm0|] eqn:Hm; [|reflexivity].
  apply newProtoMap_lookup_inv in Hm. subst pm0. reflexivity.
Qed.

Lemma protomap_of_both s ipstr :
  wf s ->
  is_Some (protomap_of s ipstr !! "tcp") ∧
  is_Some (protomap_of s ipstr !! "udp").
Proof.
  intros Hwf. unfold protomap_of.
  destruct (globalMap s !! ipstr) as [protomap|] eqn:Hg.
  - exact (Hwf _ _ Hg).
  - split; eexists; reflexivity.
Qed.

Lemma wf_store s ipstr proto pm :
  wf s -> wf (store s ipstr proto (protomap_of s ipstr) pm).
Proof.
  intros Hwf i m. unfold store. simpl. rewrite lookup_insert.
  case_decide as Hi; [|apply Hwf].
  intros [= <-]. destruct (protomap_of_both s ipstr Hwf) as [Ht Hu].
  rewrite !lookup_insert. split; case_decide; eauto.
Qed.

Lemma wf_boot start end_ : wf (boot start end_).
Proof. intros i m. unfold boot. simpl. rewrite lookup_empty. discriminate. Qed.

(** ** What a call that returns has done *)

Lemma RequestPort_Done s ip proto port r s' :
  wf s -> valid_proto proto ->
  RequestPort s ip proto port = Done (r, s') ->
  ∃ pm', s' = store s (ip_key ip) proto (protomap_of s (ip_key ip)) pm' ∧
    ((r = (0, Some (ErrPortAlreadyAllocated (ip_key ip) port)) ∧ 0 < port ∧
      port ∈ portSet s (ip_key ip) proto ∧
      pm' = {| p := portSet s (ip_key ip) proto;
               last := cursor s (ip_key ip) proto |}) ∨
     (r = (port, None) ∧ 0 < port ∧
      (port ∉ portSet s (ip_key ip) proto) ∧
      pm' = {| p := {[port]} ∪ portSet s (ip_key ip) proto;
               last := cursor s (ip_key ip) proto |}) ∨
     (r = (0, Some ErrAllPortsAllocated) ∧ port <= 0 ∧
      pm' = {| p := portSet s (ip_key ip) proto;
               last := cursor s (ip_key ip) proto |}) ∨
     (∃ c, r = (c, None) ∧ port <= 0 ∧
      (c ∉ portSet s (ip_key ip) proto) ∧
      pm' = {| p := {[c]} ∪ portSet s (ip_key ip) proto; last := c |})).
Proof.
  intros Hwf Hv. rewrite (RequestPort_valid _ _ _ _ Hv).
  destruct (protomap_of_lookup s (ip_key ip) proto Hwf Hv)
    as (mapping & Hm & Hp & Hl).
  rewrite Hm, <- Hp, <- Hl.
  destruct (port >? 0) eqn:Eport;
    [apply Z.gtb_lt in Eport
    |rewrite Z.gtb_ltb in Eport; apply Z.ltb_ge in Eport].
  - case_decide as Hin; intros [= <- <-].
    + exists mapping. split.
      * symmetry. apply ensure_store. exact Hm.
      * left. destruct mapping. repeat split; assumption.
    + eexists. split; [reflexivity|].
      right. left. repeat split; assumption.
  - destruct (findPort s mapping) as [[r0 pm']| |] eqn:Hf;
      [|discriminate|discriminate].
    apply findPort_loop_inv in Hf.
    destruct Hf as [[-> ->]|(c & -> & Hc & ->)]; intros [= <- <-].
    + exists mapping. split; [reflexivity|].
      right. right. left. destruct mapping. repeat split; assumption.
    + eexists. split; [reflexivity|].
      right. right. right. exists c. repeat split; assumption.
Qed.

Lemma ReleasePort_Done s ip proto port r s' :
  ReleasePort s ip proto port = Done (r, s') ->
  r = None ∧
  ((globalMap s !! ip_key ip = None ∧ s' = s) ∨
   (∃ mapping, lookup_pm s (ip_key ip) proto = Some mapping ∧
      s' = store s (ip_key ip) proto (protomap_of s (ip_key ip))
             {| p := p mapping ∖ {[port]}; last := last mapping |})).
Proof.
  unfold ReleasePort, lookup_pm, protomap_of.
  destruct (globalMap s !! ip_key ip) as [protomap|] eqn:Hg.
  - destruct (protomap !! proto) as [mapping|] eqn:Hm; [|discriminate].
    intros [= <- <-]. split; [reflexivity|]. right.
    exists mapping. split; reflexivity.
  - intros [= <- <-]. split; [reflexivity|]. left. split; reflexivity.
Qed.

(** ** Invariants of the calls *)

Lemma not_valid_proto proto :
  ¬ valid_proto proto -> proto ≠ "tcp" ∧ proto ≠ "udp".
Proof. unfold valid_proto. intros Hn. split; intros ->; apply Hn; auto. Qed.

Lemma RequestPort_invalid s ip proto port :
  ¬ valid_proto proto ->
  RequestPort s ip proto port = Done ((0, Some ErrUnknownProtocol), s).
Proof.
  intros Hn. apply not_valid_proto in Hn. unfold RequestPort.
  rewrite bool_decide_eq_true_2; [reflexivity | exact Hn].
Qed.

Lemma valid_proto_dec proto : {valid_proto proto} + {¬ valid_proto proto}.
Proof.
  unfold valid_proto.
  destruct (decide (proto = "tcp")); [left; auto|].
  destruct (decide (proto = "udp")); [left; auto|].
  right. intros [?|?]; contradiction.
Qed.

Lemma step_wf s c r s' :
  wf s -> step s c = Done (r, s') ->
  wf s' ∧ beginPortRange s' = beginPortRange s ∧
  endPortRange s' = endPortRange s.
Proof.
  intros Hwf. destruct c as [ip proto port|ip proto port|]; simpl.
  - destruct (RequestPort s ip proto port) as [[[c err] s1]| |] eqn:Hr;
      [|discriminate|discriminate].
    intros [= <- <-].
    destruct (valid_proto_dec proto) as [Hv|Hn].
    + destruct (RequestPort_Done _ _ _ _ _ _ Hwf Hv Hr) as (pm' & -> & _).
      split; [apply wf_store; exact Hwf|split; reflexivity].
    + rewrite (RequestPort_invalid _ _ _ _ Hn) in Hr.
      injection Hr as _ _ <-. auto.
  - destruct (ReleasePort s ip proto port) as [[err s1]| |] eqn:Hr;
      [|discriminate|discriminate].
    intros [= <- <-].
    apply ReleasePort_Done in Hr.
    destruct Hr as [_ [[_ ->]|(mapping & _ & ->)]]; [auto|].
    split; [apply wf_store; exact Hwf|split; reflexivity].
  - intros [= <- <-]. split; [|split; reflexivity].
    intros i m. simpl. rewrite lookup_empty. discriminate.
Qed.

Lemma trace_wf start end_ evs s :
  trace (boot start end_) evs s ->
  wf s ∧ beginPortRange s = start ∧ endPortRange s = end_.
Proof.
  induction 1 as [|evs s c r s' _ (Hwf & Hb & He) Hstep].
  - split; [apply wf_boot|split; reflexivity].
  - destruct (step_wf _ _ _ _ Hwf Hstep) as (Hwf' & Hb' & He').
    split; [exact Hwf'|split; congruence].
Qed.

Lemma reachable_wf start end_ s :
  reachable (boot start end_) s ->
  wf s ∧ beginPortRange s = start ∧ endPortRange s = end_.
Proof. intros [evs Ht]. exact (trace_wf _ _ _ _ Ht). Qed.

Lemma cursor_in_range s ipstr proto :
  cursors_in_range s -> beginPortRange s <= endPortRange s ->
  beginPortRange s <= cursor s ipstr proto <= endPortRange s.
Proof.
  intros Hc Hse. unfold cursor.
  destruct (lookup_pm s ipstr proto) as [pm|] eqn:Hl.
  - exact (Hc _ _ _ Hl).
  - lia.
Qed.

Lemma cursors_in_range_store s ipstr proto pm :
  cursors_in_range s -> beginPortRange s <= endPortRange s ->
  beginPortRange s <= last pm <= endPortRange s ->
  cursors_in_range (store s ipstr proto (protomap_of s ipstr) pm).
Proof.
  intros Hc Hse Hpm i pr pm0. rewrite lookup_pm_store. simpl.
  case_decide as Hi; [subst i|apply Hc].
  case_decide as Hp; [intros [= <-]; exact Hpm|].
  destruct (lookup_pm_protomap_of s ipstr pr) as [Hnone|Heq].
  - unfold lookup_pm, protomap_of in *.
    destruct (globalMap s !! ipstr) as [m|].
    + rewrite Hnone. discriminate.
    + intros Hm. apply newProtoMap_lookup_inv in Hm. subst pm0. simpl. lia.
  - rewrite <- Heq. apply Hc.
Qed.

(** A request for any port, in a range where nothing wraps around, is the
    search over mathematical integers on the Port Set and the cursor of
    the pair. *)
Lemma RequestPort_any s ip proto port :
  range_ok (beginPortRange s) (endPortRange s) ->
  wf s -> cursors_in_range s -> valid_proto proto -> port <= 0 ->
  RequestPort s ip proto port =
  Done match scan (Z.to_nat (endPortRange s - beginPortRange s + 1))
               (beginPortRange s) (endPortRange s)
               (portSet s (ip_key ip) proto) (cursor s (ip_key ip) proto) with
       | Some c =>
           ((c, None),
            store s (ip_key ip) proto (protomap_of s (ip_key ip))
              {| p := {[c]} ∪ portSet s (ip_key ip) proto; last := c |})
       | None => ((0, Some ErrAllPortsAllocated), ensure s (ip_key ip))
       end.
Proof.
  intros Hr Hwf Hc Hv Hport. rewrite (RequestPort_valid _ _ _ _ Hv).
  destruct (protomap_of_lookup s (ip_key ip) proto Hwf Hv)
    as (mapping & Hm & Hp & Hl).
  rewrite Hm, <- Hp, <- Hl.
  assert ((port >? 0) = false) as ->.
  { rewrite Z.gtb_ltb. apply Z.ltb_ge. exact Hport. }
  assert (beginPortRange s <= last mapping <= endPortRange s) as Hlast.
  { rewrite Hl. apply cursor_in_range; [exact Hc|]. unfold range_ok in Hr. lia. }
  rewrite findPort_scan by (try assumption; lia).
  destruct (scan _ _ _ _ _) as [c|]; [reflexivity|].
  rewrite (ensure_store _ _ _ _ Hm). reflexivity.
Qed.

Lemma step_cursors s c r s' :
  range_ok (beginPortRange s) (endPortRange s) ->
  wf s -> cursors_in_range s -> step s c = Done (r, s') ->
  cursors_in_range s'.
Proof.
  intros Hr Hwf Hc.
  assert (beginPortRange s <= endPortRange s) as Hse
    by (unfold range_ok in Hr; lia).
  destruct c as [ip proto port|ip proto port|]; simpl.
  - destruct (RequestPort s ip proto port) as [[[c err] s1]| |] eqn:Hreq;
      [|discriminate|discriminate].
    intros [= <- <-].
    destruct (valid_proto_dec proto) as [Hv|Hn].
    + pose proof (cursor_in_range s (ip_key ip) proto Hc Hse) as Hcur.
      destruct (Z_le_gt_dec port 0) as [Hle|Hgt].
      * rewrite (RequestPort_any _ _ _ _ Hr Hwf Hc Hv Hle) in Hreq.
        destruct (scan _ _ _ _ _) as [q|] eqn:Hscan;
          injection Hreq as _ _ <-.
        -- apply cursors_in_range_store; try assumption. simpl.
           apply scan_Some in Hscan; lia.
        -- destruct (protomap_of_lookup s (ip_key ip) proto Hwf Hv)
             as (mapping & Hm & _ & Hl).
           rewrite <- (ensure_store _ _ _ _ Hm).
           apply cursors_in_range_store; try assumption. lia.
      * destruct (RequestPort_Done _ _ _ _ _ _ Hwf Hv Hreq)
          as (pm' & -> & Hcases).
        apply cursors_in_range_store; try assumption.
        destruct Hcases as [(_ & _ & _ & ->)|[(_ & _ & _ & ->)
          |[(_ & ? & _)|(? & _ & ? & _)]]]; simpl; lia.
    + rewrite (RequestPort_invalid _ _ _ _ Hn) in Hreq.
      injection Hreq as _ _ <-. exact Hc.
  - destruct (ReleasePort s ip proto port) as [[err s1]| |] eqn:Hrel;
      [|discriminate|discriminate].
    intros [= <- <-].
    apply ReleasePort_Done in Hrel.
    destruct Hrel as [_ [[_ ->]|(mapping & Hl & ->)]]; [exact Hc|].
    apply cursors_in_range_store; try assumption. simpl.
    exact (Hc _ _ _ Hl).
  - intros [= <- <-]. intros i pr pm. unfold lookup_pm. simpl.
    rewrite lookup_empty. discriminate.
Qed.

Lemma step_inv start end_ s c r s' :
  range_ok start end_ -> inv start end_ s -> step s c = Done (r, s') ->
  inv start end_ s'.
Proof.
  intros Hr (Hb & He & Hwf & Hc) Hstep.
  destruct (step_wf _ _ _ _ Hwf Hstep) as (Hwf' & Hb' & He').
  split; [congruence|split; [congruence|split; [exact Hwf'|]]].
  apply (step_cursors s c r s');
    [rewrite Hb, He; exact Hr|exact Hwf|exact Hc|exact Hstep].
Qed.

Lemma trace_inv start end_ evs s :
  range_ok start end_ -> trace (boot start end_) evs s -> inv start end_ s.
Proof.
  intros Hr. induction 1 as [|evs s c r s' Ht (Hb & He & Hwf & Hc) Hstep].
  - split; [reflexivity|split; [reflexivity|split; [apply wf_boot|]]].
    intros i pr pm. unfold lookup_pm. simpl. rewrite lookup_empty.
    discriminate.
  - apply (step_inv start end_ s c r s' Hr); [|exact Hstep].
    split; [exact Hb|split; [exact He|split; [exact Hwf|exact Hc]]].
Qed.

Lemma reachable_inv start end_ s :
  range_ok start end_ -> reachable (boot start end_) s -> inv start end_ s.
Proof. intros Hr [evs Ht]. exact (trace_inv _ _ _ _ Hr Ht). Qed.

(** ** Unknown protocols *)

(** C5: a request with a protocol other than tcp and udp fails with
    ErrUnknownProtocol for every address and every port, 0 included, and
    returns the state it was given: the table, every port set and every
    cursor are the same. *)
Theorem RequestPort_unknown_protocol s ip proto port :
  proto ≠ "tcp" -> proto ≠ "udp" ->
  RequestPort s ip proto port = Done ((0, Some ErrUnknownProtocol), s).
Proof.
  intros Htcp Hudp. unfold RequestPort.
  rewrite bool_decide_eq_true_2; [reflexivity | split; assumption].
Qed.

(** ** Requests for a specific port *)

Lemma lookup_pm_Some_entry s ipstr proto pm :
  lookup_pm s ipstr proto = Some pm ->
  ∃ protomap, globalMap s !! ipstr = Some protomap ∧
              protomap !! proto = Some pm.
Proof.
  unfold lookup_pm. destruct (globalMap s !! ipstr) as [m|]; [|discriminate].
  intros Hm. exists m. split; [reflexivity|exact Hm].
Qed.

Lemma portSet_elem_entry s ipstr proto port :
  port ∈ portSet s ipstr proto -> is_Some (globalMap s !! ipstr).
Proof.
  unfold portSet. destruct (lookup_pm s ipstr proto) as [pm|] eqn:Hl.
  - intros _. apply lookup_pm_Some_entry in Hl as (m & Hg & _). eauto.
  - intros Hin. exfalso. revert Hin. apply not_elem_of_empty.
Qed.

Lemma RequestPort_free s ip proto port :
  wf s -> valid_proto proto -> 0 < port ->
  port ∉ portSet s (ip_key ip) proto ->
  RequestPort s ip proto port =
  Done ((port, None),
        store s (ip_key ip) proto (protomap_of s (ip_key ip))
          {| p := {[port]} ∪ portSet s (ip_key ip) proto;
             last := cursor s (ip_key ip) proto |}).
Proof.
  intros Hwf Hv Hport Hfree. rewrite (RequestPort_valid _ _ _ _ Hv).
  destruct (protomap_of_lookup s (ip_key ip) proto Hwf Hv)
    as (mapping & Hm & Hp & Hl).
  rewrite Hm, <- Hp, <- Hl.
  assert ((port >? 0) = true) as -> by (apply Z.gtb_lt; lia).
  rewrite decide_False by (rewrite Hp; exact Hfree). reflexivity.
Qed.

Lemma RequestPort_taken s ip proto port :
  wf s -> valid_proto proto -> 0 < port ->
  port ∈ portSet s (ip_key ip) proto ->
  RequestPort s ip proto port =
  Done ((0, Some (ErrPortAlreadyAllocated (ip_key ip) port)), s).
Proof.
  intros Hwf Hv Hport Htaken. rewrite (RequestPort_valid _ _ _ _ Hv).
  destruct (protomap_of_lookup s (ip_key ip) proto Hwf Hv)
    as (mapping & Hm & Hp & Hl).
  rewrite Hm.
  assert ((port >? 0) = true) as -> by (apply Z.gtb_lt; lia).
  rewrite decide_True by (rewrite Hp; exact Htaken).
  destruct (portSet_elem_entry _ _ _ _ Htaken) as [m Hg].
  rewrite (ensure_id _ _ _ Hg). reflexivity.
Qed.

(** C1: for every address, protocol tcp or udp and port above 0, in every
    state that the calls can reach: when the port is not in the Port Set
    of the pair, RequestPort returns that port and no error, the Port Set
    gains exactly that port and no cursor moves; when the port is in the
    Port Set, RequestPort returns the error ErrPortAlreadyAllocated with
    the string of the address and the port, and the state, cursors
    included, is the one it was given. *)
Theorem RequestPort_specific_port start end_ s ip proto port :
  reachable (boot start end_) s ->
  proto = "tcp" ∨ proto = "udp" ->
  0 < port ->
  (port ∉ portSet s (ip_key ip) proto ->
   ∃ s', RequestPort s ip proto port = Done ((port, None), s') ∧
         portSet s' (ip_key ip) proto =
           {[port]} ∪ portSet s (ip_key ip) proto ∧
         ∀ ipstr' proto', cursor s' ipstr' proto' = cursor s ipstr' proto') ∧
  (port ∈ portSet s (ip_key ip) proto ->
   RequestPort s ip proto port =
   Done ((0, Some (ErrPortAlreadyAllocated (ip_key ip) port)), s)).
Proof.
  intros Hreach Hv Hport.
  destruct (reachable_wf _ _ _ Hreach) as (Hwf & _ & _).
  split.
  - intros Hfree. eexists. split; [|split].
    + apply RequestPort_free; assumption.
    + apply portSet_store.
    + intros i pr.
      destruct (decide ((i, pr) = (ip_key ip, proto))) as [[= -> ->]|Hne].
      * apply cursor_store.
      * apply cursor_store_other. exact Hne.
  - intros Htaken. apply RequestPort_taken; assumption.
Qed.

(** ** Releases *)

Lemma ReleasePort_no_entry s ip proto port :
  globalMap s !! ip_key ip = None ->
  ReleasePort s ip proto port = Done (None, s).
Proof. intros Hg. unfold ReleasePort. rewrite Hg. reflexivity. Qed.

Lemma ReleasePort_entry s ip proto port mapping :
  lookup_pm s (ip_key ip) proto = Some mapping ->
  ReleasePort s ip proto port =
  Done (None,
        store s (ip_key ip) proto (protomap_of s (ip_key ip))
          {| p := p mapping ∖ {[port]}; last := last mapping |}).
Proof.
  intros Hl. apply lookup_pm_Some_entry in Hl as (m & Hg & Hm).
  unfold ReleasePort, protomap_of. rewrite Hg, Hm. reflexivity.
Qed.

Lemma ReleasePort_not_allocated s ip proto port :
  wf s -> valid_proto proto ->
  port ∉ portSet s (ip_key ip) proto ->
  ReleasePort s ip proto port = Done (None, s).
Proof.
  intros Hwf Hv Hfree.
  destruct (globalMap s !! ip_key ip) as [m|] eqn:Hg;
    [|apply ReleasePort_no_entry; exact Hg].
  assert (is_Some (m !! proto)) as [mapping Hm].
  { destruct (Hwf _ _ Hg) as [Ht Hu]. destruct Hv as [-> | ->]; assumption. }
  assert (lookup_pm s (ip_key ip) proto = Some mapping) as Hl.
  { unfold lookup_pm. rewrite Hg. exact Hm. }
  rewrite (ReleasePort_entry _ _ _ _ _ Hl).
  unfold portSet in Hfree. rewrite Hl in Hfree.
  rewrite difference_disjoint_L
    by (intros x Hx Hx'; apply elem_of_singleton in Hx'; congruence).
  unfold protomap_of. rewrite Hg.
  destruct mapping as [ps l]. simpl.
  rewrite (store_id _ _ _ _ _ Hg Hm). reflexivity.
Qed.

(** C8: for every address and protocol tcp or udp, in every state that the
    calls can reach: releasing a port that is not in the Port Set of the
    pair returns no error and the state it was given; so does a release
    for an address without an entry in the table; and after the release of
    an allocated port above 0, requesting that port succeeds. *)
Theorem ReleasePort_idempotent start end_ s ip proto port :
  reachable (boot start end_) s ->
  proto = "tcp" ∨ proto = "udp" ->
  (port ∉ portSet s (ip_key ip) proto ->
   ReleasePort s ip proto port = Done (None, s)) ∧
  (globalMap s !! ip_key ip = None ->
   ReleasePort s ip proto port = Done (None, s)) ∧
  (port ∈ portSet s (ip_key ip) proto -> 0 < port ->
   ∃ s1 s2, ReleasePort s ip proto port = Done (None, s1) ∧
            RequestPort s1 ip proto port = Done ((port, None), s2)).
Proof.
  intros Hreach Hv.
  destruct (reachable_wf _ _ _ Hreach) as (Hwf & _ & _).
  split; [|split].
  - intros Hfree. apply ReleasePort_not_allocated; assumption.
  - apply ReleasePort_no_entry.
  - intros Htaken Hport.
    unfold portSet in Htaken.
    destruct (lookup_pm s (ip_key ip) proto) as [mapping|] eqn:Hl;
      [|exfalso; revert Htaken; apply not_elem_of_empty].
    eexists. eexists. split.
    + apply (ReleasePort_entry _ _ _ _ _ Hl).
    + apply RequestPort_free; try assumption.
      * apply wf_store. exact Hwf.
      * rewrite portSet_store. simpl. intros Hin.
        apply elem_of_difference in Hin as [_ Hn].
        apply Hn, elem_of_singleton. reflexivity.
Qed.


(** ** Reset *)

Lemma RequestPort_AlreadyAllocated_inv s ip proto port ipstr q s' :
  RequestPort s ip proto port =
    Done ((0, Some (ErrPortAlreadyAllocated ipstr q)), s') ->
  valid_proto proto ∧ 0 < port.
Proof.
  destruct (valid_proto_dec proto) as [Hv|Hn].
  - rewrite (RequestPort_valid _ _ _ _ Hv).
    destruct (protomap_of s (ip_key ip) !! proto) as [mapping|];
      [|discriminate].
    destruct (port >? 0) eqn:Eport.
    + intros _. split; [exact Hv|]. apply Z.gtb_lt in Eport. lia.
    + destruct (findPort s mapping) as [[r0 pm']| |] eqn:Hf;
        [|discriminate|discriminate].
      apply findPort_loop_inv in Hf.
      destruct Hf as [[-> ->]|(c & -> & _ & ->)]; discriminate.
  - rewrite (RequestPort_invalid _ _ _ _ Hn). discriminate.
Qed.

(** C9: ReleaseAll returns no error and leaves an empty table; after it,
    every request for a specific port that has failed before with
    ErrPortAlreadyAllocated, in whatever state, succeeds and returns the
    port. *)
Theorem ReleaseAll_discards_table s0 s ip proto port s0' :
  fst (ReleaseAll s) = None ∧
  globalMap (snd (ReleaseAll s)) = ∅ ∧
  (RequestPort s0 ip proto port =
     Done ((0, Some (ErrPortAlreadyAllocated (ip_key ip) port)), s0') ->
   ∃ s', RequestPort (snd (ReleaseAll s)) ip proto port =
         Done ((port, None), s')).
Proof.
  split; [reflexivity|split; [reflexivity|]].
  intros Hfail.
  apply RequestPort_AlreadyAllocated_inv in Hfail as [Hv Hport].
  eexists. apply RequestPort_free; try assumption.
  - intros i m. simpl. rewrite lookup_empty. discriminate.
  - unfold portSet, lookup_pm. simpl. rewrite lookup_empty.
    apply not_elem_of_empty.
Qed.

(** ** Requests for any port *)

Lemma scan_fresh n start end_ port :
  scan (S n) start end_ ∅ port = Some (next_port start end_ port).
Proof.
  simpl. rewrite decide_False by apply not_elem_of_empty. reflexivity.
Qed.

Lemma portSet_no_entry s ipstr proto :
  globalMap s !! ipstr = None ->
  portSet s ipstr proto = ∅ ∧ cursor s ipstr proto = endPortRange s.
Proof.
  intros Hg. unfold portSet, cursor, lookup_pm. rewrite Hg.
  split; reflexivity.
Qed.

(** What a request for any port does in a state that the calls reach, in
    a range where nothing wraps around. *)
Lemma RequestPort_any_cases start end_ s ip proto port :
  range_ok start end_ -> inv start end_ s ->
  valid_proto proto -> port <= 0 ->
  (∃ c, scan (Z.to_nat (end_ - start + 1)) start end_
          (portSet s (ip_key ip) proto) (cursor s (ip_key ip) proto)
        = Some c ∧
        start <= c <= end_ ∧ (c ∉ portSet s (ip_key ip) proto) ∧
        RequestPort s ip proto port =
        Done ((c, None),
              store s (ip_key ip) proto (protomap_of s (ip_key ip))
                {| p := {[c]} ∪ portSet s (ip_key ip) proto; last := c |})) ∨
  (scan (Z.to_nat (end_ - start + 1)) start end_
     (portSet s (ip_key ip) proto) (cursor s (ip_key ip) proto) = None ∧
   RequestPort s ip proto port = Done ((0, Some ErrAllPortsAllocated), s)).
Proof.
  intros Hr (Hb & He & Hwf & Hc) Hv Hport.
  assert (start <= end_) as Hse by (unfold range_ok in Hr; lia).
  pose proof (cursor_in_range s (ip_key ip) proto Hc) as Hcur.
  rewrite Hb, He in Hcur. specialize (Hcur Hse).
  rewrite RequestPort_any; try assumption; [|rewrite Hb, He; exact Hr].
  rewrite Hb, He.
  destruct (scan _ _ _ _ _) as [c|] eqn:Hscan.
  - left. exists c. split; [reflexivity|].
    apply scan_Some in Hscan; [|lia|lia].
    destruct Hscan as [Hin Hfree]. repeat split; [lia|lia|exact Hfree].
  - right. split; [reflexivity|].
    destruct (globalMap s !! ip_key ip) as [m|] eqn:Hg.
    + rewrite (ensure_id _ _ _ Hg). reflexivity.
    + exfalso.
      destruct (portSet_no_entry s _ proto Hg) as [Hps _].
      rewrite Hps in Hscan.
      replace (Z.to_nat (end_ - start + 1))
        with (S (Z.to_nat (end_ - start))) in Hscan by lia.
      rewrite scan_fresh in Hscan. discriminate.
Qed.

(** ** The cursor *)

Lemma RequestPort_ErrAllPortsAllocated_inv s ip proto port s' :
  RequestPort s ip proto port = Done ((0, Some ErrAllPortsAllocated), s') ->
  valid_proto proto.
Proof.
  destruct (valid_proto_dec proto) as [Hv|Hn]; [intros _; exact Hv|].
  rewrite (RequestPort_invalid _ _ _ _ Hn). discriminate.
Qed.

(** A call moves the cursor of a pair only when it is a successful request
    for any port on that pair. *)
Lemma step_cursor s c r s' ipstr proto :
  wf s -> step s c = Done (r, s') ->
  any_succeeded ipstr proto (c, r) = false ->
  c ≠ CallReleaseAll ->
  cursor s' ipstr proto = cursor s ipstr proto.
Proof.
  intros Hwf Hstep Hrr Hc.
  destruct c as [ip pr port|ip pr port|]; simpl in Hstep; [| |congruence].
  - destruct (RequestPort s ip pr port) as [[[c err] s1]| |] eqn:Hreq;
      [|discriminate|discriminate].
    injection Hstep as <- <-.
    destruct (valid_proto_dec pr) as [Hv|Hn].
    + destruct (RequestPort_Done _ _ _ _ _ _ Hwf Hv Hreq)
        as (pm' & -> & Hcases).
      destruct (decide ((ipstr, proto) = (ip_key ip, pr)))
        as [[= -> ->]|Hne]; [|apply cursor_store_other; exact Hne].
      rewrite cursor_store.
      destruct Hcases as [(_ & _ & _ & ->)|[(_ & _ & _ & ->)
        |[(_ & _ & ->)|(q & [= -> ->] & Hport & _ & ->)]]];
        try reflexivity.
      exfalso. simpl in Hrr.
      rewrite bool_decide_eq_true_2 in Hrr by auto. discriminate.
    + rewrite (RequestPort_invalid _ _ _ _ Hn) in Hreq.
      injection Hreq as _ _ <-. reflexivity.
  - destruct (ReleasePort s ip pr port) as [[err s1]| |] eqn:Hrel;
      [|discriminate|discriminate].
    injection Hstep as <- <-.
    apply ReleasePort_Done in Hrel.
    destruct Hrel as [_ [[_ ->]|(mapping & Hl & ->)]]; [reflexivity|].
    destruct (decide ((ipstr, proto) = (ip_key ip, pr)))
      as [[= -> ->]|Hne]; [|apply cursor_store_other; exact Hne].
    rewrite cursor_store. unfold cursor. rewrite Hl. reflexivity.
Qed.

Lemma rr_succeeded_cons ipstr proto c r evs :
  c ≠ CallReleaseAll ->
  rr_succeeded ipstr proto ((c, r) :: evs) =
  any_succeeded ipstr proto (c, r) || rr_succeeded ipstr proto evs.
Proof. intros Hc. destruct c; [reflexivity|reflexivity|congruence]. Qed.

Lemma trace_cursor_initial start end_ evs s ipstr proto :
  trace (boot start end_) evs s ->
  rr_succeeded ipstr proto evs = false ->
  cursor s ipstr proto = end_.
Proof.
  induction 1 as [|evs s c r s' Ht IH Hstep]; intros Hrr.
  - reflexivity.
  - destruct (trace_wf _ _ _ _ Ht) as (Hwf & Hb & He).
    assert (c = CallReleaseAll ∨ c ≠ CallReleaseAll) as [->|Hc]
      by (destruct c; [right; discriminate|right; discriminate|left; reflexivity]).
    + simpl in Hstep. injection Hstep as _ <-. exact He.
    + rewrite rr_succeeded_cons in Hrr by exact Hc.
      apply orb_false_elim in Hrr as [Hrr1 Hrr2].
      rewrite (step_cursor _ _ _ _ _ _ Hwf Hstep Hrr1 Hc).
      apply IH. exact Hrr2.
Qed.

(** C6: in every state that the calls reach from the start of the package
    with range [start, end_].  (1) In a range where nothing wraps around,
    the cursor of every Port Set lies in [start, end_], and a successful
    search leaves the cursor of its Port Set on the port it returns, a
    port of the range.  (2) A search that fails with ErrAllPortsAllocated
    leaves every cursor at its previous value.  (3) The cursor of a Port
    Set on which no search has succeeded is the upper bound of the
    range. *)
Theorem cursor_invariant start end_ evs s :
  trace (boot start end_) evs s ->
  (range_ok start end_ ->
   (∀ ipstr proto pm, lookup_pm s ipstr proto = Some pm ->
      start <= last pm <= end_) ∧
   (∀ ip proto port c s',
      proto = "tcp" ∨ proto = "udp" -> port <= 0 ->
      RequestPort s ip proto port = Done ((c, None), s') ->
      cursor s' (ip_key ip) proto = c ∧ start <= c <= end_)) ∧
  (∀ ip proto port s',
     RequestPort s ip proto port =
       Done ((0, Some ErrAllPortsAllocated), s') ->
     ∀ ipstr' proto', cursor s' ipstr' proto' = cursor s ipstr' proto') ∧
  (∀ ipstr proto pm, lookup_pm s ipstr proto = Some pm ->
     rr_succeeded ipstr proto evs = false -> last pm = end_).
Proof.
  intros Ht. destruct (trace_wf _ _ _ _ Ht) as (Hwf & Hb & He).
  split; [|split].
  - intros Hr. pose proof (trace_inv _ _ _ _ Hr Ht) as Hinv.
    split.
    + destruct Hinv as (_ & _ & _ & Hc). intros i pr pm Hl.
      specialize (Hc _ _ _ Hl). lia.
    + intros ip proto port c s' Hv Hport Hreq.
      destruct (RequestPort_any_cases start end_ s ip proto port Hr Hinv Hv
                  Hport) as [(q & _ & Hin & _ & Hreq')|[_ Hreq']];
        rewrite Hreq' in Hreq; [|discriminate].
      injection Hreq as <- <-. rewrite cursor_store. split; [reflexivity|lia].
  - intros ip proto port s' Hreq i pr.
    pose proof (RequestPort_ErrAllPortsAllocated_inv _ _ _ _ _ Hreq) as Hv.
    destruct (RequestPort_Done _ _ _ _ _ _ Hwf Hv Hreq)
      as (pm' & -> & Hcases).
    destruct (decide ((i, pr) = (ip_key ip, proto)))
      as [[= -> ->]|Hne]; [|apply cursor_store_other; exact Hne].
    rewrite cursor_store.
    destruct Hcases as [(_ & _ & _ & ->)|[(_ & _ & _ & ->)
      |[(_ & _ & ->)|(q & [= _] & _)]]]; reflexivity.
  - intros i pr pm Hl Hrr.
    pose proof (trace_cursor_initial _ _ _ _ i pr Ht Hrr) as Hcur.
    unfold cursor in Hcur. rewrite Hl in Hcur. exact Hcur.
Qed.


(** ** Exhaustion of the range *)

Lemma RequestPort_step s ip proto port c err s' :
  RequestPort s ip proto port = Done ((c, err), s') ->
  step s (CallRequestPort ip proto port) = Done (RetPort c err, s').
Proof. intros Hreq. simpl. rewrite Hreq. reflexivity. Qed.

Lemma ReleasePort_step s ip proto port err s' :
  ReleasePort s ip proto port = Done (err, s') ->
  step s (CallReleasePort ip proto port) = Done (RetErr err, s').
Proof. intros Hrel. simpl. rewrite Hrel. reflexivity. Qed.

(** A request takes no port out of a Port Set. *)
Lemma RequestPort_portSet_mono s ip proto port r s' ipstr proto' c :
  wf s -> RequestPort s ip proto port = Done (r, s') ->
  c ∈ portSet s ipstr proto' -> c ∈ portSet s' ipstr proto'.
Proof.
  intros Hwf Hreq Hc.
  destruct (valid_proto_dec proto) as [Hv|Hn].
  - destruct (RequestPort_Done _ _ _ _ _ _ Hwf Hv Hreq)
      as (pm' & -> & Hcases).
    destruct (decide ((ipstr, proto') = (ip_key ip, proto)))
      as [[= -> ->]|Hne];
      [|rewrite portSet_store_other by exact Hne; exact Hc].
    rewrite portSet_store.
    destruct Hcases as [(_ & _ & _ & ->)|[(_ & _ & _ & ->)
      |[(_ & _ & ->)|(q & _ & _ & _ & ->)]]]; simpl;
      try exact Hc; apply elem_of_union_r; exact Hc.
  - rewrite (RequestPort_invalid _ _ _ _ Hn) in Hreq.
    injection Hreq as _ <-. exact Hc.
Qed.

(** Over calls that release nothing, the successful requests for any port
    on a pair have put as many different ports of the range into its Port
    Set as there were such requests. *)
Lemma segment_ports start end_ s evs s1 ipstr proto :
  range_ok start end_ -> inv start end_ s ->
  trace s evs s1 ->
  Forall (λ ev, is_release ev = false) evs ->
  inv start end_ s1 ∧
  ∃ A : gset Z, size A = count_any ipstr proto evs ∧
    ∀ c, c ∈ A -> start <= c <= end_ ∧ c ∈ portSet s1 ipstr proto.
Proof.
  intros Hr Hinv. induction 1 as [|evs s1 c r s' Ht IH Hstep]; intros Hrel.
  - split; [exact Hinv|]. exists ∅. split; [apply size_empty|].
    intros c Hc. exfalso. revert Hc. apply not_elem_of_empty.
  - apply Forall_cons in Hrel as [Hc Hrel].
    destruct (IH Hrel) as (Hinv1 & A & Hsize & HA).
    pose proof (step_inv _ _ _ _ _ _ Hr Hinv1 Hstep) as Hinv'.
    split; [exact Hinv'|].
    destruct c as [ip pr port| |]; [|discriminate Hc|discriminate Hc].
    simpl in Hstep.
    destruct (RequestPort s1 ip pr port) as [[[x err] s1']| |] eqn:Hreq;
      [|discriminate|discriminate].
    injection Hstep as <- <-.
    destruct Hinv1 as (Hb & He & Hwf & Hcur).
    assert (∀ c, c ∈ A -> start <= c <= end_ ∧ c ∈ portSet s1' ipstr proto)
      as HA'.
    { intros c Hc'. destruct (HA _ Hc') as [Hin Hset]. split; [exact Hin|].
      exact (RequestPort_portSet_mono _ _ _ _ _ _ _ _ _ Hwf Hreq Hset). }
    destruct (any_succeeded ipstr proto (CallRequestPort ip pr port,
                                          RetPort x err)) eqn:Hany.
    + simpl in Hany. destruct err as [err|]; [discriminate|].
      apply bool_decide_eq_true_1 in Hany as (Hport & <- & <-).
      assert (valid_proto pr) as Hv.
      { destruct (valid_proto_dec pr) as [Hv|Hn]; [exact Hv|].
        rewrite (RequestPort_invalid _ _ _ _ Hn) in Hreq. discriminate. }
      destruct (RequestPort_any_cases start end_ s1 ip pr port Hr
                  (conj Hb (conj He (conj Hwf Hcur))) Hv Hport)
        as [(q & _ & Hin & Hfree & Hreq')|[_ Hreq']];
        rewrite Hreq' in Hreq; [|discriminate].
      injection Hreq as <- <-.
      exists ({[q]} ∪ A). split.
      * simpl. rewrite bool_decide_eq_true_2 by auto.
        rewrite size_union, size_singleton, Hsize; [reflexivity|].
        intros y Hy HyA. apply elem_of_singleton in Hy. subst y.
        apply Hfree. apply (HA _ HyA).
      * intros c Hc'. apply elem_of_union in Hc' as [Hc'|Hc'];
          [|apply HA'; exact Hc'].
        apply elem_of_singleton in Hc'. subst c. split; [exact Hin|].
        rewrite portSet_store. simpl.
        apply elem_of_union_l, elem_of_singleton. reflexivity.
    + exists A. split; [|exact HA'].
      simpl. simpl in Hany. rewrite Hany. exact Hsize.
Qed.

(** As many successful requests as the range has ports fill the range. *)
Lemma segment_full start end_ s evs s1 ip proto :
  range_ok start end_ -> inv start end_ s ->
  trace s evs s1 ->
  Forall (λ ev, is_release ev = false) evs ->
  count_any (ip_key ip) proto evs = Z.to_nat (end_ - start + 1) ->
  inv start end_ s1 ∧
  (∀ c, start <= c <= end_ -> c ∈ portSet s1 (ip_key ip) proto).
Proof.
  intros Hr Hinv Ht Hrel Hcount.
  destruct (segment_ports _ _ _ _ _ (ip_key ip) proto Hr Hinv Ht Hrel)
    as (Hinv1 & A & Hsize & HA).
  split; [exact Hinv1|].
  assert (A = range_set start end_) as Heq.
  { apply set_subseteq_size_eq.
    - intros c Hc. apply elem_of_range_set. apply (HA _ Hc).
    - rewrite size_range_set, Hsize, Hcount. reflexivity. }
  intros c Hc. apply HA. rewrite Heq. apply elem_of_range_set. exact Hc.
Qed.

Lemma RequestPort_any_full start end_ s ip proto :
  range_ok start end_ -> valid_proto proto -> inv start end_ s ->
  (∀ c, start <= c <= end_ -> c ∈ portSet s (ip_key ip) proto) ->
  RequestPort s ip proto 0 = Done ((0, Some ErrAllPortsAllocated), s).
Proof.
  intros Hr Hv Hinv Hfull.
  destruct (RequestPort_any_cases start end_ s ip proto 0 Hr Hinv Hv)
    as [(c & _ & Hin & Hfree & _)|[_ Hreq]]; [lia| |exact Hreq].
  exfalso. apply Hfree, Hfull. exact Hin.
Qed.

Lemma RequestPort_any_one_free start end_ s ip proto q :
  range_ok start end_ -> valid_proto proto -> inv start end_ s ->
  start <= q <= end_ -> q ∉ portSet s (ip_key ip) proto ->
  (∀ c, start <= c <= end_ -> c ≠ q -> c ∈ portSet s (ip_key ip) proto) ->
  RequestPort s ip proto 0 =
  Done ((q, None),
        store s (ip_key ip) proto (protomap_of s (ip_key ip))
          {| p := {[q]} ∪ portSet s (ip_key ip) proto; last := q |}).
Proof.
  intros Hr Hv Hinv Hq Hfree Hothers.
  destruct (RequestPort_any_cases start end_ s ip proto 0 Hr Hinv Hv)
    as [(c & _ & Hin & Hcfree & Hreq)|[Hscan _]]; [lia| |].
  - destruct (decide (c = q)) as [->|Hne]; [exact Hreq|].
    exfalso. apply Hcfree, Hothers; assumption.
  - exfalso.
    destruct Hinv as (Hb & He & Hwf & Hc).
    assert (start <= end_) as Hse by lia.
    pose proof (cursor_in_range s (ip_key ip) proto Hc) as Hcur.
    rewrite Hb, He in Hcur. specialize (Hcur Hse).
    rewrite (scan_finds _ _ _ _ _ q) in Hscan; try assumption;
      [discriminate|lia|].
    destruct (cursor s (ip_key ip) proto <? q) eqn:E;
      [apply Z.ltb_lt in E|apply Z.ltb_ge in E]; lia.
Qed.


(** C2: in a range [start, end_] where nothing wraps around, for every
    address and protocol tcp or udp, from every state that the calls
    reach: once end_ - start + 1 requests for any port on the pair have
    succeeded, with any other requests but no release and no reset among
    them, the next request for any port fails with ErrAllPortsAllocated;
    and after the release of any one port of the range, all of which are
    allocated then, the next request for any port succeeds and returns
    that port, which was not in the Port Set when the request was made,
    and the request after it fails with ErrAllPortsAllocated again. *)
Theorem round_robin_exhaustion start end_ evs0 s evs s1 ip proto :
  range_ok start end_ ->
  trace (boot start end_) evs0 s ->
  trace s evs s1 ->
  Forall (λ ev, is_release ev = false) evs ->
  proto = "tcp" ∨ proto = "udp" ->
  count_any (ip_key ip) proto evs = Z.to_nat (end_ - start + 1) ->
  RequestPort s1 ip proto 0 = Done ((0, Some ErrAllPortsAllocated), s1) ∧
  ∀ q, start <= q <= end_ ->
    ∃ s2 s3,
      ReleasePort s1 ip proto q = Done (None, s2) ∧
      (q ∉ portSet s2 (ip_key ip) proto) ∧
      RequestPort s2 ip proto 0 = Done ((q, None), s3) ∧
      RequestPort s3 ip proto 0 = Done ((0, Some ErrAllPortsAllocated), s3).
Proof.
  intros Hr Ht0 Ht Hrel Hv Hcount.
  pose proof (trace_inv _ _ _ _ Hr Ht0) as Hinv.
  destruct (segment_full _ _ _ _ _ _ _ Hr Hinv Ht Hrel Hcount)
    as (Hinv1 & Hfull).
  split; [apply (RequestPort_any_full start end_); assumption|].
  intros q Hq.
  pose proof (Hfull q Hq) as Hq1.
  destruct (lookup_pm s1 (ip_key ip) proto) as [mapping|] eqn:Hl;
    [|unfold portSet in Hq1; rewrite Hl in Hq1;
      exfalso; revert Hq1; apply not_elem_of_empty].
  assert (p mapping = portSet s1 (ip_key ip) proto) as Hp
    by (unfold portSet; rewrite Hl; reflexivity).
  pose proof (ReleasePort_entry s1 ip proto q mapping Hl) as Hrel1.
  pose proof (step_inv _ _ _ _ _ _ Hr Hinv1
                (ReleasePort_step _ _ _ _ _ _ Hrel1)) as Hinv2.
  set (s2 := store s1 (ip_key ip) proto (protomap_of s1 (ip_key ip))
               {| p := p mapping ∖ {[q]}; last := last mapping |}) in *.
  assert (portSet s2 (ip_key ip) proto =
          portSet s1 (ip_key ip) proto ∖ {[q]}) as Hset2
    by (unfold s2; rewrite portSet_store, <- Hp; reflexivity).
  assert (q ∉ portSet s2 (ip_key ip) proto) as Hfree2.
  { rewrite Hset2. intros Hin. apply elem_of_difference in Hin as [_ Hn].
    apply Hn, elem_of_singleton. reflexivity. }
  assert (RequestPort s2 ip proto 0 =
          Done ((q, None),
                store s2 (ip_key ip) proto (protomap_of s2 (ip_key ip))
                  {| p := {[q]} ∪ portSet s2 (ip_key ip) proto; last := q |}))
    as Hreq2.
  { apply (RequestPort_any_one_free start end_); try assumption.
    intros c Hc Hne. rewrite Hset2. apply elem_of_difference.
    split; [apply Hfull; exact Hc|].
    intros Hcq. apply elem_of_singleton in Hcq. contradiction. }
  pose proof (step_inv _ _ _ _ _ _ Hr Hinv2
                (RequestPort_step _ _ _ _ _ _ _ Hreq2)) as Hinv3.
  exists s2. eexists. split; [exact Hrel1|split; [exact Hfree2|]].
  split; [exact Hreq2|].
  apply (RequestPort_any_full start end_); try assumption.
  intros c Hc. rewrite portSet_store. simpl.
  destruct (decide (c = q)) as [->|Hne].
  - apply elem_of_union_l, elem_of_singleton. reflexivity.
  - apply elem_of_union_r. rewrite Hset2. apply elem_of_difference.
    split; [apply Hfull; exact Hc|].
    intros Hcq. apply elem_of_singleton in Hcq. contradiction.
Qed.

(** ** A range of two ports *)

Lemma inv_boot start end_ : inv start end_ (boot start end_).
Proof.
  split; [reflexivity|split; [reflexivity|split; [apply wf_boot|]]].
  intros i pr pm. unfold lookup_pm. simpl. rewrite lookup_empty.
  discriminate.
Qed.

Lemma range_ok_two_ports : range_ok 49153 49154.
Proof. unfold range_ok, min_int, max_int. lia. Qed.

(** C3, as the code has it: with the range [49153, 49154] and a table
    without entries, whose cursors start at 49154, the first request for
    any port returns 49153, the port after the cursor once it has wrapped
    around to the lower bound; the second returns 49154; the third fails
    with ErrAllPortsAllocated. *)
Theorem two_port_range_order ip proto :
  proto = "tcp" ∨ proto = "udp" ->
  ∃ s1 s2,
    RequestPort (boot 49153 49154) ip proto 0 = Done ((49153, None), s1) ∧
    RequestPort s1 ip proto 0 = Done ((49154, None), s2) ∧
    RequestPort s2 ip proto 0 = Done ((0, Some ErrAllPortsAllocated), s2).
Proof.
  intros Hv. pose proof range_ok_two_ports as Hr.
  pose proof (inv_boot 49153 49154) as Hinv0.
  destruct (RequestPort_any_cases _ _ _ ip proto 0 Hr Hinv0 Hv)
    as [(c1 & Hscan1 & _ & _ & Hreq1)|[Hscan1 _]]; [lia| |];
    unfold portSet, cursor, lookup_pm in Hscan1; simpl in Hscan1;
    vm_compute in Hscan1; [|discriminate].
  injection Hscan1 as <-.
  pose proof (step_inv _ _ _ _ _ _ Hr Hinv0 (RequestPort_step _ _ _ _ _ _ _ Hreq1))
    as Hinv1.
  set (s1 := store (boot 49153 49154) (ip_key ip) proto _ _) in *.
  destruct (RequestPort_any_cases _ _ _ ip proto 0 Hr Hinv1 Hv)
    as [(c2 & Hscan2 & _ & _ & Hreq2)|[Hscan2 _]]; [lia| |];
    unfold s1 in Hscan2; rewrite portSet_store, cursor_store in Hscan2;
    unfold portSet, lookup_pm in Hscan2; simpl in Hscan2;
    vm_compute in Hscan2; [|discriminate].
  injection Hscan2 as <-.
  pose proof (step_inv _ _ _ _ _ _ Hr Hinv1 (RequestPort_step _ _ _ _ _ _ _ Hreq2))
    as Hinv2.
  exists s1. eexists. split; [exact Hreq1|split; [exact Hreq2|]].
  apply (RequestPort_any_full 49153 49154); try assumption.
  intros c Hc. rewrite portSet_store. simpl.
  unfold s1. rewrite portSet_store. simpl.
  destruct (decide (c = 49154)) as [->|Hne].
  - apply elem_of_union_l, elem_of_singleton. reflexivity.
  - apply elem_of_union_r, elem_of_union_l, elem_of_singleton. lia.
Qed.


(** ** Releases with an unknown protocol *)

(** The entry of the address exists and has no port map for the protocol:
    [protomap[proto]] is the nil pointer, and reading its field [p]
    panics. *)
Lemma ReleasePort_nil_portMap s ip proto port protomap :
  globalMap s !! ip_key ip = Some protomap ->
  protomap !! proto = None ->
  ReleasePort s ip proto port = Panic.
Proof. intros Hg Hm. unfold ReleasePort. rewrite Hg, Hm. reflexivity. Qed.


(** * Further properties of the calls *)

(** ** What one call changes *)

Lemma RequestPort_success_valid s ip proto port c s' :
  RequestPort s ip proto port = Done ((c, None), s') -> valid_proto proto.
Proof.
  destruct (valid_proto_dec proto) as [Hv|Hn]; [intros _; exact Hv|].
  rewrite (RequestPort_invalid _ _ _ _ Hn). discriminate.
Qed.

(** X1: a request that returns a port, asked for or found by the search,
    returns one that was not in the Port Set of its pair and leaves that
    Port Set with exactly this port added; a request for a specific port
    returns the port it was asked for. *)
Theorem RequestPort_success_allocates start end_ s ip proto port c s' :
  reachable (boot start end_) s ->
  RequestPort s ip proto port = Done ((c, None), s') ->
  (c ∉ portSet s (ip_key ip) proto) ∧
  portSet s' (ip_key ip) proto = {[c]} ∪ portSet s (ip_key ip) proto ∧
  (0 < port -> c = port).
Proof.
  intros Hreach Hreq.
  destruct (reachable_wf _ _ _ Hreach) as (Hwf & _ & _).
  pose proof (RequestPort_success_valid _ _ _ _ _ _ Hreq) as Hv.
  destruct (RequestPort_Done _ _ _ _ _ _ Hwf Hv Hreq) as (pm' & -> & Hcases).
  rewrite portSet_store.
  destruct Hcases as [([= _] & _)|[([= ->] & Hport & Hfree & ->)
    |[([= _] & _)|(q & [= ->] & Hport & Hfree & ->)]]]; simpl.
  - split; [exact Hfree|split; reflexivity].
  - split; [exact Hfree|split; [reflexivity|lia]].
Qed.

(** X2: a request that returns an error returns the port 0 and leaves
    every Port Set and every cursor as it was. *)
Theorem RequestPort_failure_keeps_sets start end_ s ip proto port c err s' :
  reachable (boot start end_) s ->
  RequestPort s ip proto port = Done ((c, Some err), s') ->
  c = 0 ∧
  ∀ ipstr' proto',
    portSet s' ipstr' proto' = portSet s ipstr' proto' ∧
    cursor s' ipstr' proto' = cursor s ipstr' proto'.
Proof.
  intros Hreach Hreq.
  destruct (reachable_wf _ _ _ Hreach) as (Hwf & _ & _).
  destruct (valid_proto_dec proto) as [Hv|Hn].
  - destruct (RequestPort_Done _ _ _ _ _ _ Hwf Hv Hreq)
      as (pm' & -> & Hcases).
    assert (c = 0 ∧ pm' = {| p := portSet s (ip_key ip) proto;
                             last := cursor s (ip_key ip) proto |})
      as [-> ->].
    { destruct Hcases as [([= -> _] & _ & _ & ->)|[([= _] & _)
        |[([= -> _] & _ & ->)|(q & [= _] & _)]]]; split; reflexivity. }
    split; [reflexivity|]. intros i pr.
    destruct (decide ((i, pr) = (ip_key ip, proto))) as [[= -> ->]|Hne].
    + rewrite portSet_store, cursor_store. split; reflexivity.
    + rewrite portSet_store_other, cursor_store_other by exact Hne.
      split; reflexivity.
  - rewrite (RequestPort_invalid _ _ _ _ Hn) in Hreq.
    injection Hreq as <- _ <-. split; [reflexivity|].
    intros i pr. split; reflexivity.
Qed.

(** X3: a request on one pair of address and protocol leaves the Port Set
    and the cursor of every other pair as they were: the protocols of one
    address, and the addresses, do not share ports. *)
Theorem RequestPort_other_pairs start end_ s ip proto port r s' :
  reachable (boot start end_) s ->
  RequestPort s ip proto port = Done (r, s') ->
  ∀ ipstr' proto', (ipstr', proto') ≠ (ip_key ip, proto) ->
    portSet s' ipstr' proto' = portSet s ipstr' proto' ∧
    cursor s' ipstr' proto' = cursor s ipstr' proto'.
Proof.
  intros Hreach Hreq i pr Hne.
  destruct (reachable_wf _ _ _ Hreach) as (Hwf & _ & _).
  destruct (valid_proto_dec proto) as [Hv|Hn].
  - destruct (RequestPort_Done _ _ _ _ _ _ Hwf Hv Hreq) as (pm' & -> & _).
    rewrite portSet_store_other, cursor_store_other by exact Hne.
    split; reflexivity.
  - rewrite (RequestPort_invalid _ _ _ _ Hn) in Hreq.
    injection Hreq as _ <-. split; reflexivity.
Qed.

(** X4: a release that returns has no error, takes exactly the released
    port out of the Port Set of its pair, and leaves every other Port Set
    and every cursor as it was. *)
Theorem ReleasePort_effect s ip proto port r s' :
  ReleasePort s ip proto port = Done (r, s') ->
  r = None ∧
  portSet s' (ip_key ip) proto = portSet s (ip_key ip) proto ∖ {[port]} ∧
  (∀ ipstr' proto', (ipstr', proto') ≠ (ip_key ip, proto) ->
     portSet s' ipstr' proto' = portSet s ipstr' proto') ∧
  (∀ ipstr' proto', cursor s' ipstr' proto' = cursor s ipstr' proto').
Proof.
  intros Hrel. apply ReleasePort_Done in Hrel.
  destruct Hrel as [-> [[Hg ->]|(mapping & Hl & ->)]];
    (split; [reflexivity|]).
  - destruct (portSet_no_entry s _ proto Hg) as [-> _].
    split; [|split; reflexivity].
    apply set_eq. intros x. rewrite elem_of_difference.
    split; [intros Hx|intros [Hx _]]; exfalso; revert Hx;
      apply not_elem_of_empty.
  - split; [|split].
    + rewrite portSet_store. unfold portSet. rewrite Hl. reflexivity.
    + intros i pr Hne. apply portSet_store_other. exact Hne.
    + intros i pr.
      destruct (decide ((i, pr) = (ip_key ip, proto))) as [[= -> ->]|Hne].
      * rewrite cursor_store. unfold cursor. rewrite Hl. reflexivity.
      * apply cursor_store_other. exact Hne.
Qed.


(** ** No port is handed out twice *)

Lemma segment_allocated s evs s1 ipstr proto :
  wf s -> trace s evs s1 ->
  Forall (λ ev, is_release ev = false) evs ->
  wf s1 ∧
  (∀ c, c ∈ portSet s ipstr proto -> c ∈ portSet s1 ipstr proto) ∧
  NoDup (allocated ipstr proto evs) ∧
  (∀ c, c ∈ allocated ipstr proto evs ->
     (c ∉ portSet s ipstr proto) ∧ c ∈ portSet s1 ipstr proto).
Proof.
  intros Hwf. induction 1 as [|evs s1 c r s' Ht IH Hstep]; intros Hrel.
  - split; [exact Hwf|split; [auto|split; [constructor|]]].
    intros c Hc. apply elem_of_nil in Hc. contradiction.
  - apply Forall_cons in Hrel as [Hc Hrel].
    destruct (IH Hrel) as (Hwf1 & Hmono & Hnd & Halloc).
    destruct (step_wf _ _ _ _ Hwf1 Hstep) as (Hwf' & _ & _).
    destruct c as [ip pr port| |]; [|discriminate Hc|discriminate Hc].
    simpl in Hstep.
    destruct (RequestPort s1 ip pr port) as [[[x err] s1']| |] eqn:Hreq;
      [|discriminate|discriminate].
    injection Hstep as <- <-.
    pose proof (λ c, RequestPort_portSet_mono _ _ _ _ _ _ ipstr proto c
                       Hwf1 Hreq) as Hstepmono.
    split; [exact Hwf'|split; [auto|]].
    assert (∀ c, c ∈ allocated ipstr proto evs ->
              (c ∉ portSet s ipstr proto) ∧ c ∈ portSet s1' ipstr proto)
      as Halloc'.
    { intros c Hc'. destruct (Halloc _ Hc') as [Hn Hin]. auto. }
    simpl. destruct err as [err|]; [split; assumption|].
    case_bool_decide as Hpair; [|split; assumption].
    destruct Hpair as [<- <-].
    pose proof (RequestPort_success_valid _ _ _ _ _ _ Hreq) as Hv.
    destruct (RequestPort_Done _ _ _ _ _ _ Hwf1 Hv Hreq)
      as (pm' & Hs' & Hcases).
    assert ((x ∉ portSet s1 (ip_key ip) pr) ∧
            x ∈ portSet s1' (ip_key ip) pr) as [Hfree Hin].
    { rewrite Hs', portSet_store.
      destruct Hcases as [([= _] & _)|[([= ->] & _ & Hfree & ->)
        |[([= _] & _)|(q & [= ->] & _ & Hfree & ->)]]]; simpl;
        (split; [exact Hfree|]);
        apply elem_of_union_l, elem_of_singleton; reflexivity. }
    split.
    + constructor; [|exact Hnd].
      intros Hx. apply Hfree. apply (Halloc _ Hx).
    + intros c Hc'. apply elem_of_cons in Hc' as [->|Hc'];
        [|apply Halloc'; exact Hc'].
      split; [|exact Hin]. intros Hx. apply Hfree, Hmono. exact Hx.
Qed.

(** X5: over calls among which there is no release and no reset, the
    successful requests on one pair of address and protocol return
    pairwise different ports, none of which was in the Port Set of the
    pair before, and all of which are in it afterwards. *)
Theorem no_double_allocation start end_ evs0 s evs s1 ipstr proto :
  trace (boot start end_) evs0 s ->
  trace s evs s1 ->
  Forall (λ ev, is_release ev = false) evs ->
  NoDup (allocated ipstr proto evs) ∧
  ∀ c, c ∈ allocated ipstr proto evs ->
    (c ∉ portSet s ipstr proto) ∧ c ∈ portSet s1 ipstr proto.
Proof.
  intros Ht0 Ht Hrel.
  destruct (trace_wf _ _ _ _ Ht0) as (Hwf & _ & _).
  destruct (segment_allocated _ _ _ ipstr proto Hwf Ht Hrel)
    as (_ & _ & Hnd & Halloc).
  split; assumption.
Qed.

(** ** The order of the search *)

Lemma steps_to_pos start end_ port q :
  start <= end_ -> start - 1 <= port <= end_ -> start <= q <= end_ ->
  1 <= steps_to start end_ port q <= end_ - start + 1.
Proof.
  intros Hse Hp Hq. unfold steps_to.
  destruct (port <? q) eqn:E;
    [apply Z.ltb_lt in E|apply Z.ltb_ge in E]; lia.
Qed.

Lemma steps_to_next_eq start end_ port :
  start <= end_ -> start - 1 <= port <= end_ ->
  steps_to start end_ port (next_port start end_ port) = 1.
Proof.
  intros Hse Hp. unfold steps_to, next_port.
  destruct (port + 1 >? end_) eqn:E1;
    [apply Z.gtb_lt in E1|rewrite Z.gtb_ltb in E1; apply Z.ltb_ge in E1].
  - destruct (port <? start) eqn:E2;
      [apply Z.ltb_lt in E2|apply Z.ltb_ge in E2]; lia.
  - destruct (port <? port + 1) eqn:E2;
      [apply Z.ltb_lt in E2|apply Z.ltb_ge in E2]; lia.
Qed.

Lemma steps_to_next start end_ port q :
  start <= end_ -> start - 1 <= port <= end_ -> start <= q <= end_ ->
  next_port start end_ port ≠ q ->
  steps_to start end_ (next_port start end_ port) q =
  steps_to start end_ port q - 1.
Proof.
  intros Hse Hp Hq. unfold steps_to, next_port.
  destruct (port + 1 >? end_) eqn:E1;
    [apply Z.gtb_lt in E1|rewrite Z.gtb_ltb in E1; apply Z.ltb_ge in E1];
    destruct (port <? q) eqn:E2;
    [apply Z.ltb_lt in E2|apply Z.ltb_ge in E2
    |apply Z.ltb_lt in E2|apply Z.ltb_ge in E2];
    intros Hne.
  - lia.
  - destruct (start <? q) eqn:E3;
      [apply Z.ltb_lt in E3|apply Z.ltb_ge in E3]; lia.
  - destruct (port + 1 <? q) eqn:E3;
      [apply Z.ltb_lt in E3|apply Z.ltb_ge in E3]; lia.
  - destruct (port + 1 <? q) eqn:E3;
      [apply Z.ltb_lt in E3|apply Z.ltb_ge in E3]; lia.
Qed.

(** A search that fails has found every candidate it tried in the set. *)
Lemma scan_None n start end_ ps port q :
  start <= end_ -> start - 1 <= port <= end_ -> start <= q <= end_ ->
  scan n start end_ ps port = None ->
  steps_to start end_ port q <= Z.of_nat n ->
  q ∈ ps.
Proof.
  intros Hse Hp Hq. revert port Hp.
  induction n as [|n IH]; intros port Hp; simpl.
  - intros _ Hsteps.
    pose proof (steps_to_pos start end_ port q Hse Hp Hq). lia.
  - pose proof (next_port_in_range start end_ port Hse Hp) as Hn.
    case_decide as Hin; [|discriminate].
    intros Hscan Hsteps.
    destruct (decide (next_port start end_ port = q)) as [<-|Hne];
      [exact Hin|].
    apply (IH (next_port start end_ port)); [lia|exact Hscan|].
    rewrite steps_to_next by assumption. lia.
Qed.

(** A search that succeeds has found every candidate before the one it
    returns in the set. *)
Lemma scan_Some_before n start end_ ps port c x :
  start <= end_ -> start - 1 <= port <= end_ -> start <= x <= end_ ->
  scan n start end_ ps port = Some c ->
  steps_to start end_ port x < steps_to start end_ port c ->
  x ∈ ps.
Proof.
  intros Hse Hp Hx. revert port Hp.
  induction n as [|n IH]; intros port Hp; simpl; [discriminate|].
  pose proof (next_port_in_range start end_ port Hse Hp) as Hn.
  case_decide as Hin.
  - intros Hscan Hlt.
    destruct (decide (next_port start end_ port = x)) as [<-|Hne];
      [exact Hin|].
    pose proof (scan_Some _ _ _ _ _ _ Hse
                  (ltac:(lia) : start - 1 <= next_port start end_ port <= end_)
                  Hscan) as [Hc Hcfree].
    apply (IH (next_port start end_ port)); [lia|exact Hscan|].
    rewrite !steps_to_next; try assumption; [lia|].
    intros Heq. apply Hcfree. rewrite <- Heq. exact Hin.
  - intros [= <-] Hlt.
    rewrite steps_to_next_eq in Hlt by assumption.
    pose proof (steps_to_pos start end_ port x Hse Hp Hx). lia.
Qed.


(** X6: in a range where nothing wraps around, a request for any port
    fails with ErrAllPortsAllocated exactly when every port of the range
    is in the Port Set of the pair; as long as one port of the range is
    free, it succeeds. *)
Theorem AllPortsAllocated_iff_full start end_ s ip proto port :
  range_ok start end_ ->
  reachable (boot start end_) s ->
  proto = "tcp" ∨ proto = "udp" ->
  port <= 0 ->
  RequestPort s ip proto port = Done ((0, Some ErrAllPortsAllocated), s)
  ↔ (∀ c, start <= c <= end_ -> c ∈ portSet s (ip_key ip) proto).
Proof.
  intros Hr Hreach Hv Hport.
  pose proof (reachable_inv _ _ _ Hr Hreach) as Hinv.
  assert (start <= end_) as Hse by (unfold range_ok in Hr; lia).
  destruct (RequestPort_any_cases start end_ s ip proto port Hr Hinv Hv
              Hport) as [(c & _ & Hin & Hfree & Hreq)|[Hscan Hreq]];
    rewrite Hreq.
  - split; [discriminate|]. intros Hfull. exfalso. apply Hfree, Hfull, Hin.
  - split; [|reflexivity]. intros _ c Hc.
    destruct Hinv as (Hb & He & Hwf & Hcur).
    pose proof (cursor_in_range s (ip_key ip) proto Hcur) as Hcursor.
    rewrite Hb, He in Hcursor. specialize (Hcursor Hse).
    assert (start - 1 <= cursor s (ip_key ip) proto <= end_) as Hcursor'
      by lia.
    apply (scan_None _ _ _ _ _ c Hse Hcursor' Hc Hscan).
    pose proof (steps_to_pos start end_ (cursor s (ip_key ip) proto) c Hse
                  Hcursor' Hc). lia.
Qed.

(** X7: in a range where nothing wraps around, the port that a request
    for any port returns is the first free one after the cursor, going up
    and wrapping around from the upper to the lower bound: every port of
    the range that the search reaches before it is in the Port Set. *)
Theorem search_returns_first_free start end_ s ip proto port c s' x :
  range_ok start end_ ->
  reachable (boot start end_) s ->
  proto = "tcp" ∨ proto = "udp" ->
  port <= 0 ->
  RequestPort s ip proto port = Done ((c, None), s') ->
  start <= x <= end_ ->
  steps_to start end_ (cursor s (ip_key ip) proto) x
    < steps_to start end_ (cursor s (ip_key ip) proto) c ->
  x ∈ portSet s (ip_key ip) proto.
Proof.
  intros Hr Hreach Hv Hport Hreq Hx Hlt.
  pose proof (reachable_inv _ _ _ Hr Hreach) as Hinv.
  assert (start <= end_) as Hse by (unfold range_ok in Hr; lia).
  destruct (RequestPort_any_cases start end_ s ip proto port Hr Hinv Hv
              Hport) as [(q & Hscan & _ & _ & Hreq')|[_ Hreq']];
    rewrite Hreq' in Hreq; [|discriminate].
  injection Hreq as -> _.
  destruct Hinv as (Hb & He & Hwf & Hcur).
  pose proof (cursor_in_range s (ip_key ip) proto Hcur) as Hcursor.
  rewrite Hb, He in Hcursor. specialize (Hcursor Hse).
  assert (start - 1 <= cursor s (ip_key ip) proto <= end_) as Hcursor'
    by lia.
  apply (scan_Some_before _ _ _ _ _ c x Hse Hcursor' Hx Hscan Hlt).
Qed.

(** X8: in a range where nothing wraps around, the first request for any
    port on an address that has no entry in the table returns the lower
    bound of the range. *)
Theorem first_request_returns_lower_bound start end_ s ip proto port :
  range_ok start end_ ->
  reachable (boot start end_) s ->
  proto = "tcp" ∨ proto = "udp" ->
  port <= 0 ->
  globalMap s !! ip_key ip = None ->
  ∃ s', RequestPort s ip proto port = Done ((start, None), s').
Proof.
  intros Hr Hreach Hv Hport Hg.
  pose proof (reachable_inv _ _ _ Hr Hreach) as Hinv.
  destruct (RequestPort_any_cases start end_ s ip proto port Hr Hinv Hv
              Hport) as [(q & Hscan & _ & _ & Hreq)|[Hscan _]];
    destruct (portSet_no_entry s _ proto Hg) as [Hps Hcur];
    rewrite Hps, Hcur in Hscan;
    destruct Hinv as (_ & He & _ & _); rewrite He in Hscan;
    replace (Z.to_nat (end_ - start + 1))
      with (S (Z.to_nat (end_ - start))) in Hscan
      by (unfold range_ok in Hr; lia);
    rewrite scan_fresh in Hscan; [|discriminate].
  injection Hscan as <-. eexists. rewrite Hreq.
  unfold next_port.
  assert ((end_ + 1 >? end_) = true) as -> by (apply Z.gtb_lt; lia).
  reflexivity.
Qed.

(** X9: in a range where nothing wraps around, after a reset the search
    starts again at the lower bound: whatever the table held, the first
    request for any port after ReleaseAll returns the lower bound. *)
Theorem ReleaseAll_restarts_search start end_ s ip proto port :
  range_ok start end_ ->
  reachable (boot start end_) s ->
  proto = "tcp" ∨ proto = "udp" ->
  port <= 0 ->
  ∃ s', RequestPort (snd (ReleaseAll s)) ip proto port
        = Done ((start, None), s').
Proof.
  intros Hr Hreach Hv Hport.
  pose proof (reachable_inv _ _ _ Hr Hreach) as Hinv.
  assert (inv start end_ (snd (ReleaseAll s))) as Hinv'.
  { apply (step_inv start end_ s CallReleaseAll (RetErr None) _ Hr Hinv).
    reflexivity. }
  destruct (RequestPort_any_cases start end_ _ ip proto port Hr Hinv' Hv
              Hport) as [(q & Hscan & _ & _ & Hreq)|[Hscan _]];
    unfold portSet, cursor, lookup_pm in Hscan; simpl in Hscan;
    rewrite lookup_empty in Hscan;
    destruct Hinv as (_ & He & _ & _); rewrite He in Hscan;
    replace (Z.to_nat (end_ - start + 1))
      with (S (Z.to_nat (end_ - start))) in Hscan
      by (unfold range_ok in Hr; lia);
    rewrite scan_fresh in Hscan; [|discriminate].
  injection Hscan as <-. eexists. rewrite Hreq.
  unfold next_port.
  assert ((end_ + 1 >? end_) = true) as -> by (apply Z.gtb_lt; lia).
  reflexivity.
Qed.


Lemma RequestPort_any_next start end_ s ip proto port :
  range_ok start end_ -> inv start end_ s ->
  valid_proto proto -> port <= 0 ->
  next_port start end_ (cursor s (ip_key ip) proto)
    ∉ portSet s (ip_key ip) proto ->
  ∃ s', RequestPort s ip proto port =
        Done ((next_port start end_ (cursor s (ip_key ip) proto), None), s').
Proof.
  intros Hr Hinv Hv Hport Hfree.
  destruct (RequestPort_any_cases start end_ s ip proto port Hr Hinv Hv
              Hport) as [(q & Hscan & _ & _ & Hreq)|[Hscan _]];
    replace (Z.to_nat (end_ - start + 1))
      with (S (Z.to_nat (end_ - start))) in Hscan
      by (unfold range_ok in Hr; lia);
    simpl in Hscan; rewrite decide_False in Hscan by exact Hfree;
    [|discriminate].
  injection Hscan as <-. eexists. exact Hreq.
Qed.

(** X10: in a range where nothing wraps around, requests for any port
    hand out consecutive ports: when a request has returned the port c and
    the port after it (c + 1, or the lower bound after the upper bound) is
    free, the next request for any port on the pair returns that port. *)
Theorem consecutive_requests start end_ s ip proto port c s1 port' :
  range_ok start end_ ->
  reachable (boot start end_) s ->
  proto = "tcp" ∨ proto = "udp" ->
  port <= 0 -> port' <= 0 ->
  RequestPort s ip proto port = Done ((c, None), s1) ->
  (if c + 1 >? end_ then start else c + 1) ∉ portSet s1 (ip_key ip) proto ->
  ∃ s2, RequestPort s1 ip proto port' =
        Done ((if c + 1 >? end_ then start else c + 1, None), s2).
Proof.
  intros Hr Hreach Hv Hport Hport' Hreq Hfree.
  pose proof (reachable_inv _ _ _ Hr Hreach) as Hinv.
  pose proof (step_inv _ _ _ _ _ _ Hr Hinv
                (RequestPort_step _ _ _ _ _ _ _ Hreq)) as Hinv1.
  assert (cursor s1 (ip_key ip) proto = c) as Hcur.
  { destruct (RequestPort_any_cases start end_ s ip proto port Hr Hinv Hv
                Hport) as [(q & _ & _ & _ & Hreq')|[_ Hreq']];
      rewrite Hreq' in Hreq; [|discriminate].
    injection Hreq as <- <-. apply cursor_store. }
  fold (next_port start end_ c) in *. rewrite <- Hcur in *.
  apply RequestPort_any_next; assumption.
Qed.

(** X11: a release does not move the cursor back.  In a range where
    nothing wraps around, when a request for any port has returned the
    port c and this port is released at once, the next request for any
    port does not return c again but the port after it, provided that one
    was free. *)
Theorem release_keeps_cursor start end_ s ip proto port c s1 port' :
  range_ok start end_ ->
  reachable (boot start end_) s ->
  proto = "tcp" ∨ proto = "udp" ->
  port <= 0 -> port' <= 0 ->
  RequestPort s ip proto port = Done ((c, None), s1) ->
  (if c + 1 >? end_ then start else c + 1) ∉ portSet s (ip_key ip) proto ->
  ∃ s2 s3,
    ReleasePort s1 ip proto c = Done (None, s2) ∧
    RequestPort s2 ip proto port' =
    Done ((if c + 1 >? end_ then start else c + 1, None), s3).
Proof.
  intros Hr Hreach Hv Hport Hport' Hreq Hfree.
  pose proof (reachable_inv _ _ _ Hr Hreach) as Hinv.
  pose proof (step_inv _ _ _ _ _ _ Hr Hinv
                (RequestPort_step _ _ _ _ _ _ _ Hreq)) as Hinv1.
  destruct (RequestPort_any_cases start end_ s ip proto port Hr Hinv Hv
              Hport) as [(q & _ & _ & Hcfree & Hreq')|[_ Hreq']];
    rewrite Hreq' in Hreq; [|discriminate].
  injection Hreq as <- Hs1.
  assert (lookup_pm s1 (ip_key ip) proto =
          Some {| p := {[q]} ∪ portSet s (ip_key ip) proto; last := q |})
    as Hl.
  { rewrite <- Hs1, lookup_pm_store, !decide_True by reflexivity.
    reflexivity. }
  pose proof (ReleasePort_entry s1 ip proto q _ Hl) as Hrel. simpl in Hrel.
  pose proof (step_inv _ _ _ _ _ _ Hr Hinv1
                (ReleasePort_step _ _ _ _ _ _ Hrel)) as Hinv2.
  set (s2 := store s1 (ip_key ip) proto (protomap_of s1 (ip_key ip))
               {| p := ({[q]} ∪ portSet s (ip_key ip) proto) ∖ {[q]};
                  last := q |}) in *.
  assert (cursor s2 (ip_key ip) proto = q) as Hcur2
    by (unfold s2; apply cursor_store).
  assert (portSet s2 (ip_key ip) proto =
          ({[q]} ∪ portSet s (ip_key ip) proto) ∖ {[q]}) as Hset2
    by (unfold s2; apply portSet_store).
  fold (next_port start end_ q) in *.
  destruct (RequestPort_any_next start end_ s2 ip proto port' Hr Hinv2 Hv
              Hport') as [s3 Hreq3].
  { rewrite Hcur2, Hset2. intros Hin.
    apply elem_of_difference in Hin as [Hin Hne].
    apply elem_of_union in Hin as [Hin|Hin]; contradiction. }
  exists s2, s3. split; [exact Hrel|].
  rewrite Hcur2 in Hreq3. exact Hreq3.
Qed.


(** ** Which calls return *)

Lemma findPort_loop_no_panic fuel start end_ i port pm :
  findPort_loop fuel start end_ i port pm ≠ Panic.
Proof.
  revert i port. induction fuel as [|fuel IH]; intros i port; simpl.
  - discriminate.
  - destruct (i <=? wrap (end_ - start)); [|discriminate].
    case_decide; [apply IH|discriminate].
Qed.

(** X12: in every state that the calls reach, RequestPort does not panic,
    whatever the address, the protocol and the port; in a range where
    nothing wraps around, it returns. *)
Theorem RequestPort_returns start end_ s ip proto port :
  reachable (boot start end_) s ->
  RequestPort s ip proto port ≠ Panic ∧
  (range_ok start end_ ->
   ∃ r s', RequestPort s ip proto port = Done (r, s')).
Proof.
  intros Hreach.
  destruct (reachable_wf _ _ _ Hreach) as (Hwf & _ & _).
  destruct (valid_proto_dec proto) as [Hv|Hn].
  - split.
    + rewrite (RequestPort_valid _ _ _ _ Hv).
      destruct (protomap_of_lookup s (ip_key ip) proto Hwf Hv)
        as (mapping & -> & _ & _).
      destruct (port >? 0); [case_decide; discriminate|].
      destruct (findPort s mapping) as [[[c [err|]] pm']| |] eqn:Hf;
        try discriminate.
      exfalso. revert Hf. apply findPort_loop_no_panic.
    + intros Hr. pose proof (reachable_inv _ _ _ Hr Hreach) as Hinv.
      destruct (Z_le_gt_dec port 0) as [Hle|Hgt].
      * destruct (RequestPort_any_cases start end_ s ip proto port Hr Hinv
                    Hv Hle) as [(c & _ & _ & _ & ->)|[_ ->]]; eauto.
      * destruct (decide (port ∈ portSet s (ip_key ip) proto)) as [Hin|Hout].
        -- rewrite RequestPort_taken by (try assumption; lia). eauto.
        -- rewrite RequestPort_free by (try assumption; lia). eauto.
  - rewrite (RequestPort_invalid _ _ _ _ Hn).
    split; [discriminate|eauto].
Qed.

Lemma newProtoMap_lookup_valid s proto :
  is_Some (newProtoMap s !! proto) -> valid_proto proto.
Proof.
  unfold newProtoMap, valid_proto. rewrite !lookup_insert.
  repeat case_decide; rewrite ?lookup_empty; intros [pm Hpm];
    try discriminate; auto.
Qed.

Lemma only_protocols_store s ipstr proto pm :
  only_protocols s -> valid_proto proto ->
  only_protocols (store s ipstr proto (protomap_of s ipstr) pm).
Proof.
  intros Honly Hv i m pr. unfold store. simpl. rewrite lookup_insert.
  case_decide as Hi; [|apply Honly].
  intros [= <-]. rewrite lookup_insert.
  case_decide as Hp; [subst pr; intros _; exact Hv|].
  unfold protomap_of.
  destruct (globalMap s !! ipstr) as [m|] eqn:Hg.
  - apply (Honly _ _ _ Hg).
  - apply newProtoMap_lookup_valid.
Qed.

Lemma step_only_protocols s c r s' :
  wf s -> only_protocols s -> step s c = Done (r, s') ->
  only_protocols s'.
Proof.
  intros Hwf Honly. destruct c as [ip proto port|ip proto port|]; simpl.
  - destruct (RequestPort s ip proto port) as [[[c err] s1]| |] eqn:Hreq;
      [|discriminate|discriminate].
    intros [= <- <-].
    destruct (valid_proto_dec proto) as [Hv|Hn].
    + destruct (RequestPort_Done _ _ _ _ _ _ Hwf Hv Hreq) as (pm' & -> & _).
      apply only_protocols_store; assumption.
    + rewrite (RequestPort_invalid _ _ _ _ Hn) in Hreq.
      injection Hreq as _ _ <-. exact Honly.
  - destruct (ReleasePort s ip proto port) as [[err s1]| |] eqn:Hrel;
      [|discriminate|discriminate].
    intros [= <- <-].
    apply ReleasePort_Done in Hrel.
    destruct Hrel as [_ [[_ ->]|(mapping & Hl & ->)]]; [exact Honly|].
    apply only_protocols_store; [exact Honly|].
    apply lookup_pm_Some_entry in Hl as (m & Hg & Hm).
    apply (Honly _ _ _ Hg). eauto.
  - intros [= <- <-]. intros i m pr. simpl. rewrite lookup_empty.
    discriminate.
Qed.

Lemma reachable_only_protocols start end_ s :
  reachable (boot start end_) s -> only_protocols s.
Proof.
  intros [evs Ht]. induction Ht as [|evs s c r s' Ht IH Hstep].
  - intros i m pr. simpl. rewrite lookup_empty. discriminate.
  - destruct (trace_wf _ _ _ _ Ht) as (Hwf & _ & _).
    exact (step_only_protocols _ _ _ _ Hwf IH Hstep).
Qed.

(** X13: in every state that the calls reach, ReleasePort returns, without
    error, when the address has no entry in the table or the protocol is
    tcp or udp; when the address has an entry and the protocol is neither,
    it panics on the nil port map. *)
Theorem ReleasePort_outcome start end_ s ip proto port :
  reachable (boot start end_) s ->
  (globalMap s !! ip_key ip = None ∨ proto = "tcp" ∨ proto = "udp" ->
   ∃ s', ReleasePort s ip proto port = Done (None, s')) ∧
  (is_Some (globalMap s !! ip_key ip) -> proto ≠ "tcp" -> proto ≠ "udp" ->
   ReleasePort s ip proto port = Panic).
Proof.
  intros Hreach.
  destruct (reachable_wf _ _ _ Hreach) as (Hwf & _ & _).
  pose proof (reachable_only_protocols _ _ _ Hreach) as Honly.
  split.
  - intros Hcase.
    destruct (globalMap s !! ip_key ip) as [m|] eqn:Hg;
      [|exists s; apply ReleasePort_no_entry; exact Hg].
    destruct Hcase as [Hnone|Hv]; [discriminate|].
    assert (is_Some (m !! proto)) as [mapping Hm].
    { destruct (Hwf _ _ Hg) as [Ht Hu]. destruct Hv as [-> | ->]; assumption. }
    eexists. apply (ReleasePort_entry _ _ _ _ mapping).
    unfold lookup_pm. rewrite Hg. exact Hm.
  - intros [m Hg] Htcp Hudp.
    apply (ReleasePort_nil_portMap _ _ _ _ m Hg).
    destruct (m !! proto) as [pm|] eqn:Hm; [|reflexivity].
    exfalso. destruct (Honly _ _ proto Hg) as [?|?]; eauto.
Qed.

(** ** The range and the entries of the table *)

(** X14: no call changes the range: after any calls, GetPortRange returns
    the bounds that the package started with. *)
Theorem GetPortRange_constant start end_ evs s :
  trace (boot start end_) evs s -> GetPortRange s = (start, end_).
Proof.
  intros Ht. destruct (trace_wf _ _ _ _ Ht) as (_ & Hb & He).
  unfold GetPortRange. rewrite Hb, He. reflexivity.
Qed.

(** X15: the addresses that have an entry in the table.  A request with
    protocol tcp or udp that returns, with a port or with an error, leaves
    an entry for its address; a request with another protocol and a
    release create and remove no entry; ReleaseAll removes them all. *)
Theorem table_entries start end_ s c r s' :
  reachable (boot start end_) s ->
  step s c = Done (r, s') ->
  dom (globalMap s') =
  match c with
  | CallRequestPort ip proto _ =>
      if bool_decide (proto = "tcp" ∨ proto = "udp")
      then {[ip_key ip]} ∪ dom (globalMap s)
      else dom (globalMap s)
  | CallReleasePort _ _ _ => dom (globalMap s)
  | CallReleaseAll => ∅
  end.
Proof.
  intros Hreach.
  destruct (reachable_wf _ _ _ Hreach) as (Hwf & _ & _).
  destruct c as [ip proto port|ip proto port|]; simpl.
  - destruct (RequestPort s ip proto port) as [[[c err] s1]| |] eqn:Hreq;
      [|discriminate|discriminate].
    intros [= <- <-]. case_bool_decide as Hv.
    + destruct (RequestPort_Done _ _ _ _ _ _ Hwf Hv Hreq) as (pm' & -> & _).
      unfold store. simpl. apply dom_insert_L.
    + rewrite (RequestPort_invalid _ _ _ _ Hv) in Hreq.
      injection Hreq as _ _ <-. reflexivity.
  - destruct (ReleasePort s ip proto port) as [[err s1]| |] eqn:Hrel;
      [|discriminate|discriminate].
    intros [= <- <-].
    apply ReleasePort_Done in Hrel.
    destruct Hrel as [_ [[_ ->]|(mapping & Hl & ->)]]; [reflexivity|].
    unfold store. simpl. rewrite dom_insert_L.
    apply lookup_pm_Some_entry in Hl as (m & Hg & _).
    apply subseteq_union_1_L. intros x Hx.
    apply elem_of_singleton in Hx. subst x.
    apply elem_of_dom. eauto.
  - intros [= <- <-]. simpl. apply dom_empty_L.
Qed.


(** ** The text of the errors *)

Lemma append_assoc (a b c : string) : (a +:+ b) +:+ c = a +:+ b +:+ c.
Proof.
  induction a as [|x a IH]; [reflexivity|].
  change (String x ((a +:+ b) +:+ c) = String x (a +:+ b +:+ c)).
  rewrite IH. reflexivity.
Qed.

(** X16: the error of a request for a port that is taken reads
    "Bind for <ip>:<port> failed: port is already allocated", where
    <ip>:<port> is what IPPort makes of the string of the address and the
    decimal form of the port. *)
Theorem AlreadyAllocated_message start end_ s ip proto port :
  reachable (boot start end_) s ->
  proto = "tcp" ∨ proto = "udp" ->
  0 < port ->
  port ∈ portSet s (ip_key ip) proto ->
  ∃ e, RequestPort s ip proto port = Done ((0, Some e), s) ∧
       Error e = "Bind for " +:+ IPPort (ip_key ip) port
                   +:+ " failed: port is already allocated".
Proof.
  intros Hreach Hv Hport Htaken.
  destruct (reachable_wf _ _ _ Hreach) as (Hwf & _ & _).
  eexists. split; [apply RequestPort_taken; assumption|].
  unfold Error, IPPort. rewrite !append_assoc. reflexivity.
Qed.

(** X17: for one address, IPPort gives different texts for different
    ports. *)
Theorem IPPort_port_inj (ipstr : string) (port port' : Z) :
  IPPort ipstr port = IPPort ipstr port' -> port = port'.
Proof.
  unfold IPPort. intros Heq.
  apply (inj (String.app ipstr)) in Heq.
  apply (inj (String.app ":")) in Heq.
  apply (inj pretty) in Heq. exact Heq.
Qed.

(** ** The upper bound at the largest integer *)

(** X18: with the largest 64-bit integer as upper bound, [port++] wraps
    around: the first request for any port returns the smallest 64-bit
    integer, which lies outside a range whose lower bound is not
    negative. *)
Theorem search_wraps_at_max_int start ip proto port :
  0 <= start <= max_int ->
  proto = "tcp" ∨ proto = "udp" ->
  port <= 0 ->
  ∃ s', RequestPort (boot start max_int) ip proto port
        = Done ((min_int, None), s').
Proof.
  intros Hstart Hv Hport.
  rewrite (RequestPort_valid _ _ _ _ Hv).
  unfold protomap_of, boot. cbn [globalMap].
  rewrite lookup_empty, (newProtoMap_lookup _ _ Hv).
  assert ((port >? 0) = false) as ->
    by (rewrite Z.gtb_ltb; apply Z.ltb_ge; exact Hport).
  unfold findPort, GetPortRange, findPort_fuel, newPortMap.
  cbn [beginPortRange endPortRange last].
  assert (wrap (max_int - start) = max_int - start) as Hd
    by (apply wrap_id; unfold is_int, min_int, max_int in *; lia).
  rewrite Hd.
  replace (Z.to_nat (Z.max (max_int - start + 2) 1))
    with (S (Z.to_nat (max_int - start + 1))) by lia.
  cbn [findPort_loop]. rewrite Hd.
  assert ((0 <=? max_int - start) = true) as -> by (apply Z.leb_le; lia).
  assert (wrap (max_int + 1) = min_int) as -> by reflexivity.
  assert ((min_int >? max_int) = false) as -> by reflexivity.
  cbn [p]. rewrite decide_False by apply not_elem_of_empty.
  eexists. reflexivity.
Qed.


(** ** Requests with a negative port *)

(** C10: a request with a negative port is the request with port 0: only
    a port above 0 takes the path of a specific port.  For protocol tcp
    or udp, in a state that the calls reach and a range where nothing
    wraps around, it runs the search: when a port of the range is free it
    returns the first free port after the cursor, a port of the range
    that was not in the Port Set, puts it there and moves the cursor onto
    it; when every port of the range is taken it fails with
    ErrAllPortsAllocated and returns the state it was given. *)
Theorem RequestPort_negative_port start end_ s ip proto port :
  port < 0 ->
  RequestPort s ip proto port = RequestPort s ip proto 0 ∧
  (range_ok start end_ -> reachable (boot start end_) s ->
   proto = "tcp" ∨ proto = "udp" ->
   ((∃ q, start <= q <= end_ ∧ q ∉ portSet s (ip_key ip) proto) ->
    ∃ c s',
      RequestPort s ip proto port = Done ((c, None), s') ∧
      start <= c <= end_ ∧ (c ∉ portSet s (ip_key ip) proto) ∧
      portSet s' (ip_key ip) proto = {[c]} ∪ portSet s (ip_key ip) proto ∧
      cursor s' (ip_key ip) proto = c ∧
      ∀ x, start <= x <= end_ ->
        steps_to start end_ (cursor s (ip_key ip) proto) x
          < steps_to start end_ (cursor s (ip_key ip) proto) c ->
        x ∈ portSet s (ip_key ip) proto) ∧
   ((∀ q, start <= q <= end_ -> q ∈ portSet s (ip_key ip) proto) ->
    RequestPort s ip proto port =
    Done ((0, Some ErrAllPortsAllocated), s))).
Proof.
  intros Hneg. split.
  - unfold RequestPort.
    assert ((port >? 0) = false) as ->
      by (rewrite Z.gtb_ltb; apply Z.ltb_ge; lia).
    reflexivity.
  - intros Hr Hreach Hv.
    pose proof (reachable_inv _ _ _ Hr Hreach) as Hinv.
    assert (start <= end_) as Hse by (unfold range_ok in Hr; lia).
    assert (start - 1 <= cursor s (ip_key ip) proto <= end_) as Hcursor.
    { destruct Hinv as (Hb & He & _ & Hcur).
      pose proof (cursor_in_range s (ip_key ip) proto Hcur) as Hc.
      rewrite Hb, He in Hc. specialize (Hc Hse). lia. }
    destruct (RequestPort_any_cases start end_ s ip proto port Hr Hinv Hv)
      as [(c & Hscan & Hin & Hfree & Hreq)|[Hscan Hreq]]; [lia| |].
    + split.
      * intros _. exists c. eexists. split; [exact Hreq|].
        split; [exact Hin|split; [exact Hfree|]].
        split; [apply portSet_store|split; [apply cursor_store|]].
        intros x Hx Hlt.
        exact (scan_Some_before _ _ _ _ _ c x Hse Hcursor Hx Hscan Hlt).
      * intros Hfull. exfalso. apply Hfree, Hfull, Hin.
    + split; [|intros _; exact Hreq].
      intros (q & Hq & Hqfree). exfalso. apply Hqfree.
      apply (scan_None _ _ _ _ _ q Hse Hcursor Hq Hscan).
      pose proof (steps_to_pos start end_ (cursor s (ip_key ip) proto) q Hse
                    Hcursor Hq). lia.
Qed.

(** ** An inverted range *)

(** X19: when the upper bound of the range lies below the lower bound,
    the loop of the search does not run: in every state that the calls
    reach, every request for any port fails with ErrAllPortsAllocated. *)
Theorem inverted_range_fails start end_ s ip proto port :
  end_ < start -> min_int <= end_ - start ->
  reachable (boot start end_) s ->
  proto = "tcp" ∨ proto = "udp" ->
  port <= 0 ->
  ∃ s', RequestPort s ip proto port
        = Done ((0, Some ErrAllPortsAllocated), s').
Proof.
  intros Hinv Hd Hreach Hv Hport.
  destruct (reachable_wf _ _ _ Hreach) as (Hwf & Hb & He).
  rewrite (RequestPort_valid _ _ _ _ Hv).
  destruct (protomap_of_lookup s (ip_key ip) proto Hwf Hv)
    as (mapping & -> & _ & _).
  assert ((port >? 0) = false) as ->
    by (rewrite Z.gtb_ltb; apply Z.ltb_ge; exact Hport).
  unfold findPort, GetPortRange, findPort_fuel. rewrite Hb, He.
  assert (wrap (end_ - start) = end_ - start) as Hw
    by (apply wrap_id; unfold is_int, min_int, max_int in *; lia).
  rewrite Hw.
  replace (Z.to_nat (Z.max (end_ - start + 2) 1))
    with (S (Z.to_nat (Z.max (end_ - start + 2) 1 - 1))) by lia.
  cbn [findPort_loop]. rewrite Hw.
  assert ((0 <=? end_ - start) = false) as -> by (apply Z.leb_gt; lia).
  eexists. reflexivity.
Qed.


End Properties.

(** ** Range discovery *)

(** What [init] does for every scanner, by what the scanner reports. *)
Lemma init_outcomes (Fscanf : string -> scan_result) (s : state) :
  (∀ err, ∃ msg, init (inr err) Fscanf s = (s, [msg])) ∧
  (∀ line,
     scan_n (Fscanf line) ≠ 2 ∨ scan_err (Fscanf line) ≠ None ->
     ∃ msg, init (inl line) Fscanf s = (s, [msg])) ∧
  (∀ line,
     scan_n (Fscanf line) = 2 -> scan_err (Fscanf line) = None ->
     init (inl line) Fscanf s =
     ({| beginPortRange := scan_start (Fscanf line);
         endPortRange := scan_end (Fscanf line);
         globalMap := globalMap s |}, [])).
Proof.
  split; [|split].
  - intros err. eexists. reflexivity.
  - intros line Hfail. unfold init.
    rewrite bool_decide_eq_true_2 by exact Hfail.
    eexists. reflexivity.
  - intros line Hn Herr. unfold init.
    rewrite bool_decide_eq_false_2 by (intros [?|?]; contradiction).
    reflexivity.
Qed.

(** *** Characters *)

Lemma is_digit_not_space c :
  is_digit c = true ->
  isSpace c = false ∧ Ascii.eqb c "+" = false ∧ Ascii.eqb c "-" = false.
Proof.
  destruct c as [[] [] [] [] [] [] [] []]; vm_compute;
    intros; repeat split; congruence.
Qed.

Lemma is_newline_space c : is_newline c = true -> isSpace c = true.
Proof.
  destruct c as [[] [] [] [] [] [] [] []]; vm_compute; congruence.
Qed.

Lemma blank_char c :
  (Ascii.eqb c " " || Ascii.eqb c "009")%char = true ->
  isSpace c = true ∧ is_newline c = false ∧ is_digit c = false.
Proof.
  destruct c as [[] [] [] [] [] [] [] []]; vm_compute;
    intros; repeat split; congruence.
Qed.

Lemma minus_not_space :
  isSpace "-" = false ∧ is_digit "-" = false.
Proof. split; reflexivity. Qed.

Lemma pretty_N_char_digit (d : N) :
  (d < 10)%N ->
  is_digit (pretty_N_char d) = true ∧
  digit_value (pretty_N_char d) = Z.of_N d.
Proof.
  intros Hd.
  assert (d = 0 ∨ d = 1 ∨ d = 2 ∨ d = 3 ∨ d = 4 ∨ d = 5 ∨ d = 6 ∨ d = 7
          ∨ d = 8 ∨ d = 9)%N as Hcases by lia.
  repeat (destruct Hcases as [->|Hcases]; [split; reflexivity|]).
  subst d. split; reflexivity.
Qed.

(** *** Decimal numbers *)

Lemma scan_digits_stop acc s :
  (s = EmptyString ∨ ∃ c s', s = String c s' ∧ is_digit c = false) ->
  scan_digits acc s = (acc, s).
Proof.
  intros [->|(c & s' & -> & Hc)]; simpl; [reflexivity|].
  rewrite Hc. reflexivity.
Qed.

Lemma pretty_N_go_app (x : N) (s rest : string) :
  pretty_N_go x s +:+ rest = pretty_N_go x (s +:+ rest).
Proof.
  revert s. induction (N.lt_wf_0 x) as [x _ IH]; intros s.
  assert (x = 0 ∨ 0 < x)%N as [->|Hx] by lia.
  - rewrite !pretty_N_go_0. reflexivity.
  - rewrite (pretty_N_go_step x s), (pretty_N_go_step x (s +:+ rest))
      by exact Hx.
    rewrite IH by (apply N.div_lt; [exact Hx|reflexivity]). reflexivity.
Qed.

Lemma pretty_N_go_head (x : N) (s : string) :
  (0 < x)%N ->
  ∃ c s', pretty_N_go x s = String c s' ∧ is_digit c = true.
Proof.
  revert s. induction (N.lt_wf_0 x) as [x _ IH]; intros s Hx.
  rewrite pretty_N_go_step by exact Hx.
  destruct (N.eq_dec (x `div` 10) 0) as [->|Hdiv].
  - rewrite pretty_N_go_0. eexists. eexists. split; [reflexivity|].
    apply pretty_N_char_digit. apply N.mod_lt. discriminate.
  - apply IH; [apply N.div_lt; [exact Hx|reflexivity]|].
    apply N.neq_0_lt_0. exact Hdiv.
Qed.

Lemma scan_digits_pretty_N_go (x : N) (s : string) :
  (0 < x)%N ->
  scan_digits 0 (pretty_N_go x s) = scan_digits (Z.of_N x) s.
Proof.
  revert s. induction (N.lt_wf_0 x) as [x _ IH]; intros s Hx.
  rewrite pretty_N_go_step by exact Hx.
  destruct (pretty_N_char_digit (x `mod` 10)%N) as [Hdig Hval];
    [apply N.mod_lt; discriminate|].
  assert (Z.of_N x = Z.of_N (x `div` 10) * 10 + Z.of_N (x `mod` 10)) as Hdm.
  { rewrite (N.div_mod x 10) at 1 by discriminate.
    rewrite N2Z.inj_add, N2Z.inj_mul. simpl. ring. }
  destruct (N.eq_dec (x `div` 10) 0) as [Hdiv|Hdiv].
  - rewrite Hdiv in *. rewrite pretty_N_go_0. simpl. rewrite Hdig, Hval.
    f_equal. simpl in Hdm. rewrite Hdm. reflexivity.
  - rewrite IH;
      [|apply N.div_lt; [exact Hx|reflexivity]
       |apply N.neq_0_lt_0; exact Hdiv].
    simpl. rewrite Hdig, Hval. f_equal. symmetry. exact Hdm.
Qed.

(** The decimal form of a positive number, followed by text that does
    not go on with a digit, is read back as that number. *)
Lemma scan_digits_pretty_pos (x : positive) (rest : string) :
  (rest = EmptyString ∨
   ∃ c s', rest = String c s' ∧ is_digit c = false) ->
  scan_digits 0 (pretty x +:+ rest) = (Z.pos x, rest) ∧
  ∃ c s', pretty x +:+ rest = String c s' ∧ is_digit c = true.
Proof.
  intros Hrest.
  assert (pretty x +:+ rest = pretty_N_go (N.pos x) rest) as ->.
  { unfold pretty, pretty_positive, pretty, pretty_N.
    rewrite decide_False by discriminate.
    rewrite pretty_N_go_app. reflexivity. }
  split.
  - rewrite scan_digits_pretty_N_go by lia.
    apply scan_digits_stop. exact Hrest.
  - apply pretty_N_go_head. lia.
Qed.

(** *** The verb and the tab *)

Lemma SkipSpace_blanks (b s : string) :
  all_blank b = true -> SkipSpace (b +:+ s) = SkipSpace s.
Proof.
  induction b as [|c b IH]; simpl; [reflexivity|].
  intros Hb. apply andb_true_iff in Hb as [Hc Hb].
  destruct (blank_char c Hc) as (Hsp & Hnl & _).
  rewrite Hnl, Hsp. apply IH. exact Hb.
Qed.

Lemma SkipSpace_head (c : ascii) (s : string) :
  isSpace c = false -> SkipSpace (String c s) = inl (String c s).
Proof.
  intros Hc. simpl. rewrite Hc.
  destruct (is_newline c) eqn:Hnl; [|reflexivity].
  apply is_newline_space in Hnl. congruence.
Qed.

Lemma scanInt_blanks (b s : string) :
  all_blank b = true -> scanInt (b +:+ s) = scanInt s.
Proof.
  intros Hb. unfold scanInt. rewrite SkipSpace_blanks by exact Hb.
  reflexivity.
Qed.

(** The decimal form of an [int] begins with a digit or the sign. *)
Lemma pretty_Z_head (z : Z) (rest : string) :
  ∃ c s', pretty z +:+ rest = String c s' ∧ isSpace c = false.
Proof.
  destruct z as [|x|x].
  - eexists. eexists. split; reflexivity.
  - destruct (pretty_N_go_head (N.pos x) rest eq_refl) as (c & s' & Hs & Hc).
    exists c, s'. split; [|apply is_digit_not_space; exact Hc].
    rewrite <- Hs. unfold pretty, pretty_Z, pretty, pretty_positive,
      pretty, pretty_N.
    rewrite decide_False by discriminate. apply pretty_N_go_app.
  - eexists. eexists. split; reflexivity.
Qed.

(** The verb reads the decimal form of an [int] back, when the text after
    it does not go on with a digit. *)
Lemma scanInt_pretty (z : Z) (rest : string) :
  is_int z ->
  (rest = EmptyString ∨
   ∃ c s', rest = String c s' ∧ is_digit c = false) ->
  scanInt (pretty z +:+ rest) = inl (z, rest).
Proof.
  intros Hz Hrest.
  assert ((min_int <=? z) && (z <=? max_int) = true) as Hrange.
  { unfold is_int in Hz. apply andb_true_iff.
    split; apply Z.leb_le; lia. }
  destruct z as [|x|x].
  - change (pretty 0 +:+ rest) with (String "0" rest).
    unfold scanInt. rewrite SkipSpace_head by reflexivity.
    cbn [Ascii.eqb]. simpl.
    change (0 * 10 + digit_value "0") with 0.
    rewrite (scan_digits_stop 0 rest Hrest). reflexivity.
  - destruct (scan_digits_pretty_pos x rest Hrest)
      as (Hscan & c & s' & Hs & Hc).
    change (pretty (Z.pos x)) with (pretty x).
    unfold scanInt. rewrite Hs.
    destruct (is_digit_not_space c Hc) as (Hsp & Hplus & Hminus).
    rewrite SkipSpace_head by exact Hsp.
    rewrite Hplus, Hminus, Hc, <- Hs, Hscan, Hrange. reflexivity.
  - destruct (scan_digits_pretty_pos x rest Hrest)
      as (Hscan & c & s' & Hs & Hc).
    change (pretty (Z.neg x) +:+ rest)
      with (String "-" (pretty x +:+ rest)).
    unfold scanInt. rewrite SkipSpace_head by reflexivity.
    change (Ascii.eqb "-" "+") with false.
    change (Ascii.eqb "-" "-") with true.
    cbv iota beta. rewrite Hs, Hc, <- Hs, Hscan.
    change (- Z.pos x) with (Z.neg x). rewrite Hrange. reflexivity.
Qed.

Lemma skip_blanks_blanks (b s : string) :
  all_blank b = true -> skip_blanks (b +:+ s) = skip_blanks s.
Proof.
  induction b as [|c b IH]; simpl; [reflexivity|].
  intros Hb. apply andb_true_iff in Hb as [Hc Hb].
  destruct (blank_char c Hc) as (Hsp & Hnl & _).
  rewrite Hnl, Hsp. simpl. apply IH. exact Hb.
Qed.

Lemma skip_blanks_head (c : ascii) (s : string) :
  isSpace c = false -> skip_blanks (String c s) = String c s.
Proof. intros Hc. simpl. rewrite Hc. reflexivity. Qed.

(** The tab of the format takes one or more spaces and tabs. *)
Lemma advance_space_blanks (b s : string) (c : ascii) (s' : string) :
  all_blank b = true -> b ≠ EmptyString ->
  s = String c s' -> isSpace c = false ->
  advance_space (b +:+ s) = inl s.
Proof.
  intros Hb Hne -> Hc. destruct b as [|c0 b]; [congruence|].
  simpl in Hb. apply andb_true_iff in Hb as [Hc0 Hb].
  destruct (blank_char c0 Hc0) as (Hsp & Hnl & _).
  simpl. rewrite Hsp, Hnl. simpl.
  rewrite skip_blanks_blanks by exact Hb.
  rewrite skip_blanks_head by exact Hc. reflexivity.
Qed.

(** *** Text without a number *)

Lemma SkipSpace_has_digit (s s1 : string) :
  SkipSpace s = inl s1 -> has_digit s1 = true -> has_digit s = true.
Proof.
  induction s as [|c s IH]; simpl.
  - intros [= <-]. auto.
  - destruct (is_newline c); [discriminate|].
    destruct (isSpace c).
    + intros Hs Hd. rewrite (IH Hs Hd). apply orb_true_r.
    + intros [= <-]. auto.
Qed.

Lemma scan_digits_has_digit (acc : Z) (s : string) :
  has_digit (snd (scan_digits acc s)) = true -> has_digit s = true.
Proof.
  revert acc. induction s as [|c s IH]; intros acc; simpl; [auto|].
  destruct (is_digit c) eqn:Hc; simpl.
  - intros _. reflexivity.
  - rewrite Hc. simpl. auto.
Qed.

(** The verb succeeds only on text that holds a digit, and the text it
    leaves is a part of the text it was given. *)
Lemma scanInt_has_digit (s : string) (v : Z) (rest : string) :
  scanInt s = inl (v, rest) ->
  has_digit s = true ∧ (has_digit rest = true -> has_digit s = true).
Proof.
  unfold scanInt.
  destruct (SkipSpace s) as [s0|err] eqn:Hskip; [|discriminate].
  destruct s0 as [|c s1]; [discriminate|].
  assert (∀ s2, (s2 = s1 ∨ s2 = String c s1) -> has_digit s2 = true ->
                has_digit s = true) as Hpart.
  { intros s2 [->| ->] Hd; apply (SkipSpace_has_digit _ _ Hskip); simpl;
      [rewrite Hd; apply orb_true_r|exact Hd]. }
  destruct (if Ascii.eqb c "+" then (false, s1)
            else if Ascii.eqb c "-" then (true, s1)
            else (false, String c s1)) as [neg s2] eqn:Hsign.
  assert (s2 = s1 ∨ s2 = String c s1) as Hs2.
  { destruct (Ascii.eqb c "+"); [injection Hsign as _ <-; auto|].
    destruct (Ascii.eqb c "-"); injection Hsign as _ <-; auto. }
  destruct s2 as [|d s3]; [discriminate|].
  destruct (is_digit d) eqn:Hd; [|discriminate].
  destruct (scan_digits 0 (String d s3)) as [v0 r0] eqn:Hscan.
  destruct ((min_int <=? (if neg then - v0 else v0))
            && ((if neg then - v0 else v0) <=? max_int)); [|discriminate].
  intros [= _ <-]. split.
  - apply (Hpart _ Hs2). simpl. rewrite Hd. reflexivity.
  - intros Hrest. apply (Hpart _ Hs2).
    apply (scan_digits_has_digit 0). rewrite Hscan. exact Hrest.
Qed.

Lemma skip_blanks_has_digit (s : string) :
  has_digit (skip_blanks s) = true -> has_digit s = true.
Proof.
  induction s as [|c s IH]; simpl; [auto|].
  destruct (isSpace c && negb (is_newline c)); [|auto].
  intros Hd. rewrite (IH Hd). apply orb_true_r.
Qed.

Lemma advance_space_has_digit (s s2 : string) :
  advance_space s = inl s2 -> has_digit s2 = true -> has_digit s = true.
Proof.
  destruct s as [|c s]; simpl.
  - intros [= <-]. auto.
  - destruct (isSpace c); simpl; [|discriminate].
    destruct (is_newline c); [discriminate|].
    intros [= <-] Hd. rewrite (skip_blanks_has_digit _ Hd).
    apply orb_true_r.
Qed.

Lemma no_digit_head (s : string) :
  has_digit s = false ->
  s = EmptyString ∨ ∃ c s', s = String c s' ∧ is_digit c = false.
Proof.
  destruct s as [|c s]; [auto|]. simpl. intros Hd.
  apply orb_false_iff in Hd as [Hc _]. right. eauto.
Qed.

Lemma ends_number_head (s : string) :
  ends_number s = true ->
  s = EmptyString ∨ ∃ c s', s = String c s' ∧ is_digit c = false.
Proof.
  destruct s as [|c s]; [auto|]. simpl. intros Hc. right.
  exists c, s. split; [reflexivity|].
  destruct (is_digit c) eqn:Hd; [|reflexivity].
  apply is_digit_not_space in Hd as [Hsp _]. congruence.
Qed.

(** *** What the scan reports *)

Lemma Fscanf_port_range_no_digit (content : string) :
  has_digit content = false ->
  scan_err (Fscanf_port_range content) ≠ None.
Proof.
  intros Hd. unfold Fscanf_port_range.
  destruct (scanInt content) as [[v rest]|err] eqn:Hscan; [|discriminate].
  apply scanInt_has_digit in Hscan as [Hd' _]. congruence.
Qed.

Lemma Fscanf_port_range_one (b0 : string) (a : Z) (rest : string) :
  all_blank b0 = true -> is_int a -> has_digit rest = false ->
  scan_err (Fscanf_port_range (b0 +:+ pretty a +:+ rest)) ≠ None.
Proof.
  intros Hb Ha Hrest. unfold Fscanf_port_range.
  rewrite scanInt_blanks by exact Hb.
  rewrite scanInt_pretty by (try exact Ha; apply no_digit_head; exact Hrest).
  destruct (advance_space rest) as [s2|err] eqn:Hadv; [|discriminate].
  destruct (scanInt s2) as [[v r]|err] eqn:Hscan; [|discriminate].
  apply scanInt_has_digit in Hscan as [Hd _].
  rewrite (advance_space_has_digit _ _ Hadv Hd) in Hrest. discriminate.
Qed.

Lemma Fscanf_port_range_two (b0 : string) (a : Z) (b1 : string) (b : Z)
    (rest : string) :
  all_blank b0 = true -> is_int a ->
  all_blank b1 = true -> b1 ≠ EmptyString -> is_int b ->
  ends_number rest = true ->
  Fscanf_port_range (b0 +:+ pretty a +:+ b1 +:+ pretty b +:+ rest) =
  {| scan_start := a; scan_end := b; scan_n := 2; scan_err := None |}.
Proof.
  intros Hb0 Ha Hb1 Hne Hb Hrest. unfold Fscanf_port_range.
  rewrite scanInt_blanks by exact Hb0.
  destruct (pretty_Z_head b rest) as (c & s' & Hs & Hc).
  rewrite scanInt_pretty; [|exact Ha|].
  - rewrite (advance_space_blanks b1 _ c s' Hb1 Hne Hs Hc).
    rewrite scanInt_pretty by (try exact Hb; apply ends_number_head;
                               exact Hrest).
    reflexivity.
  - right. destruct b1 as [|c1 b1]; [congruence|].
    simpl in Hb1. apply andb_true_iff in Hb1 as [Hc1 _].
    exists c1. eexists. split; [reflexivity|].
    apply (blank_char c1 Hc1).
Qed.

(** C7, as the code has it.  When the file cannot be read, [init] leaves
    the package variables as they are, so that GetPortRange returns the
    defaults 49153 and 65535, and hands one line to the log.  Whatever the
    content of the file, [init] returns, and either it does the same, the
    scan having failed, or it adopts both numbers that the scan has found
    and logs nothing.  The scan fails on a content without a digit, and
    on a content with one number and no digit after it; it finds the two
    numbers at the head of a content that begins with two numbers written
    in decimal with spaces or tabs between them, whatever follows them
    after a space or a newline: a content with more than two numbers is
    read as its first two. *)
Theorem range_discovery :
  GetPortRange package_vars = (49153, 65535) ∧
  (∀ err, ∃ msg,
     init (inr err) Fscanf_port_range package_vars = (package_vars, [msg])) ∧
  (∀ content,
     (∃ msg, init (inl content) Fscanf_port_range package_vars
             = (package_vars, [msg])) ∨
     (scan_n (Fscanf_port_range content) = 2 ∧
      scan_err (Fscanf_port_range content) = None ∧
      init (inl content) Fscanf_port_range package_vars =
      ({| beginPortRange := scan_start (Fscanf_port_range content);
          endPortRange := scan_end (Fscanf_port_range content);
          globalMap := ∅ |}, []))) ∧
  (∀ content,
     has_digit content = false ->
     ∃ msg, init (inl content) Fscanf_port_range package_vars
            = (package_vars, [msg])) ∧
  (∀ b0 a rest,
     all_blank b0 = true -> is_int a -> has_digit rest = false ->
     ∃ msg, init (inl (b0 +:+ pretty a +:+ rest)) Fscanf_port_range
              package_vars
            = (package_vars, [msg])) ∧
  (∀ b0 a b1 b rest,
     all_blank b0 = true -> is_int a ->
     all_blank b1 = true -> b1 ≠ EmptyString -> is_int b ->
     ends_number rest = true ->
     init (inl (b0 +:+ pretty a +:+ b1 +:+ pretty b +:+ rest))
       Fscanf_port_range package_vars =
     ({| beginPortRange := a; endPortRange := b; globalMap := ∅ |}, [])).
Proof.
  destruct (init_outcomes Fscanf_port_range package_vars)
    as (Hread & Hfail & Hok).
  split; [reflexivity|split; [exact Hread|]].
  split; [|split; [|split]].
  - intros content.
    destruct (decide (scan_n (Fscanf_port_range content) = 2)) as [Hn|Hn];
      [|left; apply Hfail; left; exact Hn].
    destruct (scan_err (Fscanf_port_range content)) as [err|] eqn:Herr.
    + left. apply Hfail. right. rewrite Herr. discriminate.
    + right. split; [exact Hn|split; [reflexivity|]].
      apply Hok; assumption.
  - intros content Hd. apply Hfail. right.
    apply Fscanf_port_range_no_digit. exact Hd.
  - intros b0 a rest Hb Ha Hrest. apply Hfail. right.
    apply Fscanf_port_range_one; assumption.
  - intros b0 a b1 b rest Hb0 Ha Hb1 Hne Hb Hrest.
    pose proof (Fscanf_port_range_two b0 a b1 b rest Hb0 Ha Hb1 Hne Hb
                  Hrest) as Hscan.
    rewrite Hok; rewrite Hscan; reflexivity.
Qed.

(** C7, as the claim has it: a content with three numbers does not hold
    exactly two, and yet its first two are adopted and nothing is
    logged. *)
Lemma three_numbers_are_adopted :
  count_integers three_numbers ≠ 2%nat ∧
  init (inl three_numbers) Fscanf_port_range package_vars =
  ({| beginPortRange := 1; endPortRange := 2; globalMap := ∅ |}, []) ∧
  GetPortRange
    (fst (init (inl three_numbers) Fscanf_port_range package_vars))
  ≠ (DefaultPortRangeStart, DefaultPortRangeEnd).
Proof.
  split; [vm_compute; discriminate|split].
  - vm_compute. reflexivity.
  - vm_compute. discriminate.
Qed.

(** ** Concrete runs *)

(** C4, the failing input: after a request has created the entry of the
    default address, a release for that address with the protocol sctp
    panics. *)
Theorem ReleasePort_unknown_protocol_panics :
  ∃ s, RequestPort (boot 49153 65535) ip_nil "tcp" 80
         = Done ((80, None), s) ∧
       ReleasePort s ip_nil "sctp" 80 = Panic.
Proof.
  eexists. split.
  - vm_compute. reflexivity.
  - vm_compute. reflexivity.
Qed.

(** C3, as the claim has it: the first request does not return 49154. *)
Lemma first_port_is_not_upper_bound :
  ¬ ∃ s', RequestPort (boot 49153 49154) ip_10_0_0_1 "tcp" 0
          = Done ((49154, None), s').
Proof. intros [s' Hreq]. vm_compute in Hreq. discriminate. Qed.

(** ** The theorems on concrete runs

    Each theorem above that has a premise, applied to a run of the
    package with IPv4 addresses. *)

Lemma reachable_boot start end_ :
  reachable (boot start end_) (boot start end_).
Proof. exists []. constructor. Defined.

Lemma RequestPort_specific_port_witness :
  reachable (boot 49153 65535) (boot 49153 65535) ∧ 0 < 80 ∧
  ∃ s', RequestPort (boot 49153 65535) ip_nil "tcp" 80
        = Done ((80, None), s').
Proof.
  split; [apply reachable_boot|split; [lia|]].
  destruct (RequestPort_specific_port 49153 65535 (boot 49153 65535)
              ip_nil "tcp" 80 (reachable_boot _ _) (or_introl eq_refl)
              ltac:(lia)) as [Hfree _].
  destruct Hfree as (s' & Hreq & _); [apply not_elem_of_empty|].
  exists s'. exact Hreq.
Defined.

Lemma round_robin_exhaustion_witness :
  range_ok 49153 49154 ∧
  ∃ s1,
    trace (boot 49153 49154)
      [(CallRequestPort ip_10_0_0_1 "tcp" 0, RetPort 49154 None);
       (CallRequestPort ip_10_0_0_1 "tcp" 0, RetPort 49153 None)] s1 ∧
    RequestPort s1 ip_10_0_0_1 "tcp" 0
    = Done ((0, Some ErrAllPortsAllocated), s1).
Proof.
  split; [apply range_ok_two_ports|].
  assert (∃ s1, trace (boot 49153 49154)
      [(CallRequestPort ip_10_0_0_1 "tcp" 0, RetPort 49154 None);
       (CallRequestPort ip_10_0_0_1 "tcp" 0, RetPort 49153 None)] s1)
    as [s1 Ht].
  { eexists. eapply trace_cons.
    - eapply trace_cons.
      + apply trace_nil.
      + vm_compute. reflexivity.
    - vm_compute. reflexivity. }
  exists s1. split; [exact Ht|].
  eapply (round_robin_exhaustion 49153 49154 [] (boot 49153 49154) _ s1
            ip_10_0_0_1 "tcp").
  - apply range_ok_two_ports.
  - apply trace_nil.
  - exact Ht.
  - repeat constructor.
  - left. reflexivity.
  - vm_compute. reflexivity.
Defined.

Lemma two_port_range_order_witness :
  ∃ s1, RequestPort (boot 49153 49154) ip_10_0_0_1 "tcp" 0
        = Done ((49153, None), s1).
Proof.
  destruct (two_port_range_order ip_10_0_0_1 "tcp" (or_introl eq_refl))
    as (s1 & s2 & Hreq1 & _).
  exists s1. exact Hreq1.
Defined.

Lemma RequestPort_unknown_protocol_witness :
  "sctp" ≠ "tcp" ∧ "sctp" ≠ "udp" ∧
  RequestPort (boot 49153 65535) ip_10_0_0_1 "sctp" 0
  = Done ((0, Some ErrUnknownProtocol), boot 49153 65535).
Proof.
  split; [discriminate|split; [discriminate|]].
  apply RequestPort_unknown_protocol; discriminate.
Defined.

Lemma cursor_invariant_witness :
  trace (boot 49153 49154) [] (boot 49153 49154) ∧ range_ok 49153 49154 ∧
  ∃ s', RequestPort (boot 49153 49154) ip_10_0_0_1 "tcp" 0
        = Done ((49153, None), s') ∧
        cursor s' (ip_key ip_10_0_0_1) "tcp" = 49153 ∧
        49153 <= 49153 <= 49154.
Proof.
  split; [constructor|split; [apply range_ok_two_ports|]].
  eexists. split; [vm_compute; reflexivity|].
  destruct (cursor_invariant 49153 49154 [] (boot 49153 49154)
              (trace_nil _)) as [Hin _].
  destruct (Hin range_ok_two_ports) as [_ Hsearch].
  eapply (Hsearch ip_10_0_0_1 "tcp" 0); [left; reflexivity|lia|].
  vm_compute. reflexivity.
Defined.

Lemma range_discovery_witness :
  has_digit "no numbers here" = false ∧
  (∃ msg, init (inl "no numbers here") Fscanf_port_range package_vars
          = (package_vars, [msg])) ∧
  (∃ msg, init (inl ("32768" +:+ newline)) Fscanf_port_range package_vars
          = (package_vars, [msg])) ∧
  init (inl usual_content) Fscanf_port_range package_vars =
  ({| beginPortRange := 32768; endPortRange := 60999; globalMap := ∅ |}, []).
Proof.
  destruct range_discovery as (_ & _ & _ & Hnone & Hone & Htwo).
  split; [reflexivity|split; [|split]].
  - apply Hnone. reflexivity.
  - apply (Hone EmptyString 32768 newline); [reflexivity| |reflexivity].
    unfold is_int, min_int, max_int. lia.
  - apply (Htwo EmptyString 32768 tab 60999 newline);
      try reflexivity; try discriminate;
      unfold is_int, min_int, max_int; lia.
Defined.

Lemma ReleasePort_idempotent_witness :
  reachable (boot 49153 65535) (boot 49153 65535) ∧
  ReleasePort (boot 49153 65535) ip_10_0_0_1 "udp" 80
  = Done (None, boot 49153 65535).
Proof.
  split; [apply reachable_boot|].
  destruct (ReleasePort_idempotent 49153 65535 (boot 49153 65535)
              ip_10_0_0_1 "udp" 80 (reachable_boot _ _)
              (or_intror eq_refl)) as [Hfree _].
  apply Hfree. apply not_elem_of_empty.
Defined.

Lemma ReleaseAll_discards_table_witness :
  RequestPort pool_with_port_80 ip_nil "tcp" 80
  = Done ((0, Some (ErrPortAlreadyAllocated (ip_key ip_nil) 80)),
          pool_with_port_80) ∧
  ∃ s', RequestPort (snd (ReleaseAll pool_with_port_80)) ip_nil "tcp" 80
        = Done ((80, None), s').
Proof.
  split; [vm_compute; reflexivity|].
  destruct (ReleaseAll_discards_table pool_with_port_80 pool_with_port_80
              ip_nil "tcp" 80 pool_with_port_80) as (_ & _ & Hok).
  apply Hok. vm_compute. reflexivity.
Defined.

(** ** The further properties on concrete runs *)

Lemma reachable_pool_with_port_80 :
  reachable (boot 49153 65535) pool_with_port_80.
Proof.
  exists [(CallRequestPort ip_nil "tcp" 80, RetPort 80 None)].
  eapply trace_cons; [apply trace_nil|]. vm_compute. reflexivity.
Defined.

Lemma reachable_pool_three_with_lower_bound :
  reachable (boot 49153 49155) pool_three_with_lower_bound.
Proof.
  exists [(CallRequestPort ip_10_0_0_1 "tcp" 49153, RetPort 49153 None)].
  eapply trace_cons; [apply trace_nil|]. vm_compute. reflexivity.
Defined.

Lemma range_ok_three_ports : range_ok 49153 49155.
Proof. unfold range_ok, min_int, max_int. lia. Defined.

Lemma range_ok_default : range_ok 49153 65535.
Proof. unfold range_ok, min_int, max_int. lia. Defined.

Lemma RequestPort_success_allocates_witness :
  RequestPort (boot 49153 65535) ip_nil "tcp" 80
  = Done ((80, None), pool_with_port_80) ∧
  portSet pool_with_port_80 (ip_key ip_nil) "tcp"
  = {[80]} ∪ portSet (boot 49153 65535) (ip_key ip_nil) "tcp".
Proof.
  assert (RequestPort (boot 49153 65535) ip_nil "tcp" 80
          = Done ((80, None), pool_with_port_80)) as Hreq
    by (vm_compute; reflexivity).
  split; [exact Hreq|].
  destruct (RequestPort_success_allocates 49153 65535 (boot 49153 65535)
              ip_nil "tcp" 80 80 pool_with_port_80 (reachable_boot _ _) Hreq)
    as (_ & Hset & _).
  exact Hset.
Defined.

Lemma RequestPort_failure_keeps_sets_witness :
  RequestPort pool_with_port_80 ip_nil "tcp" 80
  = Done ((0, Some (ErrPortAlreadyAllocated (ip_key ip_nil) 80)),
          pool_with_port_80) ∧
  0 = 0.
Proof.
  assert (RequestPort pool_with_port_80 ip_nil "tcp" 80
          = Done ((0, Some (ErrPortAlreadyAllocated (ip_key ip_nil) 80)),
                  pool_with_port_80)) as Hreq
    by (vm_compute; reflexivity).
  split; [exact Hreq|].
  destruct (RequestPort_failure_keeps_sets 49153 65535 pool_with_port_80
              ip_nil "tcp" 80 0 _ pool_with_port_80
              reachable_pool_with_port_80 Hreq) as [Hzero _].
  exact Hzero.
Defined.

Lemma RequestPort_other_pairs_witness :
  (ip_key ip_nil, "udp") ≠ (ip_key ip_nil, "tcp") ∧
  portSet pool_with_port_80 (ip_key ip_nil) "udp"
  = portSet (boot 49153 65535) (ip_key ip_nil) "udp".
Proof.
  assert ((ip_key ip_nil, "udp") ≠ (ip_key ip_nil, "tcp")) as Hne
    by (intros [= Heq]; discriminate Heq).
  split; [exact Hne|].
  assert (RequestPort (boot 49153 65535) ip_nil "tcp" 80
          = Done ((80, None), pool_with_port_80)) as Hreq
    by (vm_compute; reflexivity).
  destruct (RequestPort_other_pairs 49153 65535 (boot 49153 65535)
              ip_nil "tcp" 80 _ pool_with_port_80 (reachable_boot _ _) Hreq
              (ip_key ip_nil) "udp" Hne) as [Hset _].
  exact Hset.
Defined.

Lemma ReleasePort_effect_witness :
  ∃ s', ReleasePort pool_with_port_80 ip_nil "tcp" 80 = Done (None, s') ∧
        portSet s' (ip_key ip_nil) "tcp"
        = portSet pool_with_port_80 (ip_key ip_nil) "tcp" ∖ {[80]}.
Proof.
  eexists. split; [vm_compute; reflexivity|].
  eapply ReleasePort_effect. vm_compute. reflexivity.
Defined.

Lemma no_double_allocation_witness :
  ∃ s1,
    trace (boot 49153 49154)
      [(CallRequestPort ip_10_0_0_1 "tcp" 0, RetPort 49154 None);
       (CallRequestPort ip_10_0_0_1 "tcp" 0, RetPort 49153 None)] s1 ∧
    NoDup (allocated (ip_key ip_10_0_0_1) "tcp"
      [(CallRequestPort ip_10_0_0_1 "tcp" 0, RetPort 49154 None);
       (CallRequestPort ip_10_0_0_1 "tcp" 0, RetPort 49153 None)]).
Proof.
  assert (∃ s1, trace (boot 49153 49154)
      [(CallRequestPort ip_10_0_0_1 "tcp" 0, RetPort 49154 None);
       (CallRequestPort ip_10_0_0_1 "tcp" 0, RetPort 49153 None)] s1)
    as [s1 Ht].
  { eexists. eapply trace_cons.
    - eapply trace_cons.
      + apply trace_nil.
      + vm_compute. reflexivity.
    - vm_compute. reflexivity. }
  exists s1. split; [exact Ht|].
  apply (no_double_allocation 49153 49154 [] (boot 49153 49154) _ s1
           (ip_key ip_10_0_0_1) "tcp" (trace_nil _) Ht).
  repeat constructor.
Defined.

Lemma AllPortsAllocated_iff_full_witness :
  range_ok 49153 49154 ∧
  (RequestPort (boot 49153 49154) ip_10_0_0_1 "tcp" 0
   = Done ((0, Some ErrAllPortsAllocated), boot 49153 49154)
   ↔ (∀ c, 49153 <= c <= 49154 ->
        c ∈ portSet (boot 49153 49154) (ip_key ip_10_0_0_1) "tcp")).
Proof.
  split; [apply range_ok_two_ports|].
  apply (AllPortsAllocated_iff_full 49153 49154).
  - apply range_ok_two_ports.
  - apply reachable_boot.
  - left. reflexivity.
  - lia.
Defined.

Lemma search_returns_first_free_witness :
  ∃ s',
    RequestPort pool_three_with_lower_bound ip_10_0_0_1 "tcp" 0
    = Done ((49154, None), s') ∧
    steps_to 49153 49155
      (cursor pool_three_with_lower_bound (ip_key ip_10_0_0_1) "tcp") 49153
    < steps_to 49153 49155
        (cursor pool_three_with_lower_bound (ip_key ip_10_0_0_1) "tcp") 49154 ∧
    49153 ∈ portSet pool_three_with_lower_bound (ip_key ip_10_0_0_1) "tcp".
Proof.
  eexists.
  assert (∀ (P Q R : Prop), P -> Q -> (P -> Q -> R) -> P ∧ Q ∧ R) as Hand
    by tauto.
  apply Hand.
  - vm_compute. reflexivity.
  - vm_compute. reflexivity.
  - intros Hreq Hlt.
    apply (search_returns_first_free 49153 49155 pool_three_with_lower_bound
             ip_10_0_0_1 "tcp" 0 49154 _ 49153 range_ok_three_ports
             reachable_pool_three_with_lower_bound (or_introl eq_refl)
             ltac:(lia) Hreq ltac:(lia) Hlt).
Defined.

Lemma first_request_returns_lower_bound_witness :
  globalMap (boot 49153 65535) !! ip_key ip_10_0_0_1 = None ∧
  ∃ s', RequestPort (boot 49153 65535) ip_10_0_0_1 "udp" 0
        = Done ((49153, None), s').
Proof.
  split; [apply lookup_empty|].
  apply (first_request_returns_lower_bound 49153 65535).
  - apply range_ok_default.
  - apply reachable_boot.
  - right. reflexivity.
  - lia.
  - apply lookup_empty.
Defined.

Lemma ReleaseAll_restarts_search_witness :
  reachable (boot 49153 65535) pool_with_port_80 ∧
  ∃ s', RequestPort (snd (ReleaseAll pool_with_port_80)) ip_nil "tcp" 0
        = Done ((49153, None), s').
Proof.
  split; [apply reachable_pool_with_port_80|].
  apply (ReleaseAll_restarts_search 49153 65535).
  - apply range_ok_default.
  - apply reachable_pool_with_port_80.
  - left. reflexivity.
  - lia.
Defined.

Lemma consecutive_requests_witness :
  RequestPort (boot 49153 49154) ip_10_0_0_1 "tcp" 0
  = Done ((49153, None), pool_two_after_first) ∧
  ∃ s2, RequestPort pool_two_after_first ip_10_0_0_1 "tcp" 0
        = Done ((49154, None), s2).
Proof.
  assert (RequestPort (boot 49153 49154) ip_10_0_0_1 "tcp" 0
          = Done ((49153, None), pool_two_after_first)) as Hreq
    by (vm_compute; reflexivity).
  split; [exact Hreq|].
  apply (consecutive_requests 49153 49154 (boot 49153 49154) ip_10_0_0_1
           "tcp" 0 49153 pool_two_after_first 0 range_ok_two_ports
           (reachable_boot _ _) (or_introl eq_refl) ltac:(lia) ltac:(lia)
           Hreq).
  vm_compute. intros Hin. discriminate Hin.
Defined.

Lemma release_keeps_cursor_witness :
  RequestPort (boot 49153 49154) ip_10_0_0_1 "tcp" 0
  = Done ((49153, None), pool_two_after_first) ∧
  ∃ s2 s3,
    ReleasePort pool_two_after_first ip_10_0_0_1 "tcp" 49153
    = Done (None, s2) ∧
    RequestPort s2 ip_10_0_0_1 "tcp" 0 = Done ((49154, None), s3).
Proof.
  assert (RequestPort (boot 49153 49154) ip_10_0_0_1 "tcp" 0
          = Done ((49153, None), pool_two_after_first)) as Hreq
    by (vm_compute; reflexivity).
  split; [exact Hreq|].
  apply (release_keeps_cursor 49153 49154 (boot 49153 49154) ip_10_0_0_1
           "tcp" 0 49153 pool_two_after_first 0 range_ok_two_ports
           (reachable_boot _ _) (or_introl eq_refl) ltac:(lia) ltac:(lia)
           Hreq).
  apply not_elem_of_empty.
Defined.

Lemma RequestPort_returns_witness :
  reachable (boot 49153 65535) pool_with_port_80 ∧
  RequestPort pool_with_port_80 ip_10_0_0_1 "udp" 0 ≠ Panic.
Proof.
  split; [apply reachable_pool_with_port_80|].
  apply (RequestPort_returns 49153 65535).
  apply reachable_pool_with_port_80.
Defined.

Lemma ReleasePort_outcome_witness :
  is_Some (globalMap pool_with_port_80 !! ip_key ip_nil) ∧
  ReleasePort pool_with_port_80 ip_nil "sctp" 80 = Panic.
Proof.
  assert (is_Some (globalMap pool_with_port_80 !! ip_key ip_nil)) as Hentry
    by (vm_compute; eexists; reflexivity).
  split; [exact Hentry|].
  apply (ReleasePort_outcome 49153 65535 pool_with_port_80 ip_nil "sctp" 80
           reachable_pool_with_port_80); [exact Hentry| |]; discriminate.
Defined.

Lemma GetPortRange_constant_witness :
  ∃ s,
    trace (boot 49153 65535)
      [(CallReleaseAll, RetErr None);
       (CallReleasePort ip_nil "tcp" 80, RetErr None);
       (CallRequestPort ip_10_0_0_1 "udp" 0, RetPort 49153 None);
       (CallRequestPort ip_nil "tcp" 80, RetPort 80 None)] s ∧
    GetPortRange s = (49153, 65535).
Proof.
  assert (∃ s, trace (boot 49153 65535)
      [(CallReleaseAll, RetErr None);
       (CallReleasePort ip_nil "tcp" 80, RetErr None);
       (CallRequestPort ip_10_0_0_1 "udp" 0, RetPort 49153 None);
       (CallRequestPort ip_nil "tcp" 80, RetPort 80 None)] s) as [s Ht].
  { eexists. eapply trace_cons.
    - eapply trace_cons.
      + eapply trace_cons.
        * eapply trace_cons.
          -- apply trace_nil.
          -- vm_compute. reflexivity.
        * vm_compute. reflexivity.
      + vm_compute. reflexivity.
    - vm_compute. reflexivity. }
  exists s. split; [exact Ht|].
  apply (GetPortRange_constant 49153 65535 _ s Ht).
Defined.

Lemma table_entries_witness :
  step (boot 49153 65535) (CallRequestPort ip_nil "tcp" 80)
  = Done (RetPort 80 None, pool_with_port_80) ∧
  dom (globalMap pool_with_port_80)
  = {[ip_key ip_nil]} ∪ dom (globalMap (boot 49153 65535)).
Proof.
  assert (step (boot 49153 65535) (CallRequestPort ip_nil "tcp" 80)
          = Done (RetPort 80 None, pool_with_port_80)) as Hstep
    by (vm_compute; reflexivity).
  split; [exact Hstep|].
  apply (table_entries 49153 65535 (boot 49153 65535)
           (CallRequestPort ip_nil "tcp" 80) (RetPort 80 None)
           pool_with_port_80 (reachable_boot _ _) Hstep).
Defined.

Lemma AlreadyAllocated_message_witness :
  80 ∈ portSet pool_with_port_80 (ip_key ip_nil) "tcp" ∧
  ∃ e, RequestPort pool_with_port_80 ip_nil "tcp" 80
       = Done ((0, Some e), pool_with_port_80) ∧
       Error e = "Bind for " +:+ IPPort (ip_key ip_nil) 80
                   +:+ " failed: port is already allocated".
Proof.
  assert (80 ∈ portSet pool_with_port_80 (ip_key ip_nil) "tcp") as Htaken
    by (vm_compute; reflexivity).
  split; [exact Htaken|].
  apply (AlreadyAllocated_message 49153 65535 pool_with_port_80 ip_nil
           "tcp" 80 reachable_pool_with_port_80 (or_introl eq_refl)
           ltac:(lia) Htaken).
Defined.

Lemma IPPort_port_inj_witness :
  IPPort "0.0.0.0" 80 = IPPort "0.0.0.0" 80 ∧ 80 = 80.
Proof.
  split; [reflexivity|].
  apply (IPPort_port_inj "0.0.0.0" 80 80). reflexivity.
Defined.

Lemma search_wraps_at_max_int_witness :
  0 <= 49153 <= max_int ∧
  ∃ s', RequestPort (boot 49153 max_int) ip_10_0_0_1 "tcp" 0
        = Done ((min_int, None), s').
Proof.
  assert (0 <= 49153 <= max_int) as Hstart
    by (unfold max_int; lia).
  split; [exact Hstart|].
  apply (search_wraps_at_max_int 49153 ip_10_0_0_1 "tcp" 0 Hstart
           (or_introl eq_refl)).
  lia.
Defined.

Lemma RequestPort_negative_port_witness :
  -1 < 0 ∧ range_ok 49153 65535 ∧
  RequestPort (boot 49153 65535) ip_10_0_0_1 "tcp" (-1)
  = RequestPort (boot 49153 65535) ip_10_0_0_1 "tcp" 0 ∧
  ∃ s', RequestPort (boot 49153 65535) ip_10_0_0_1 "tcp" (-1)
        = Done ((49153, None), s').
Proof.
  split; [lia|split; [apply range_ok_default|]].
  destruct (RequestPort_negative_port 49153 65535 (boot 49153 65535)
              ip_10_0_0_1 "tcp" (-1) ltac:(lia)) as [Heq Hsearch].
  split; [exact Heq|].
  destruct (Hsearch range_ok_default (reachable_boot _ _)
              (or_introl eq_refl)) as [Hfree _].
  destruct Hfree as (c & s' & Hreq & _).
  { exists 49153. split; [lia|apply not_elem_of_empty]. }
  assert (∃ s'', RequestPort (boot 49153 65535) ip_10_0_0_1 "tcp" (-1)
                 = Done ((49153, None), s'')) as [s'' Hrun].
  { eexists. vm_compute. reflexivity. }
  exists s''. exact Hrun.
Defined.

Lemma inverted_range_fails_witness :
  49153 < 65535 ∧
  ∃ s', RequestPort (boot 65535 49153) ip_10_0_0_1 "tcp" 0
        = Done ((0, Some ErrAllPortsAllocated), s').
Proof.
  split; [lia|].
  apply (inverted_range_fails 65535 49153 (boot 65535 49153)
           ip_10_0_0_1 "tcp" 0).
  - lia.
  - unfold min_int. lia.
  - apply reachable_boot.
  - left. reflexivity.
  - lia.
Defined.
